(** * AudioCommon/Mixer.h: the audio mixing engine of Ishiiruka

    A shallow embedding of [Source/Core/AudioCommon/Mixer.h].

    Conventions.
    - [u32] counters are integers in [Z] reduced modulo [2^32] after every
      arithmetic step; [s16] samples are integers in [-32768, 32767].
    - The functions [Mixer.h] defines on [float], [Signed16ToFloat],
      [rndrcp], [DITHER_NOISE] and [TriangleDither], compute in IEEE
      binary32 (precision 24, round to nearest even) on top of the Standard
      Library's [SpecFloat]: the result of every operation is rounded to
      [float], as it is where [FLT_EVAL_METHOD] is 0.
    - [Mixer.h] declares [MixerFifo::PushSamples], [MixerFifo::Mix],
      [CMixer::Mix] and the four control constants without defining them;
      their definitions are not part of the sources at hand.  The
      definitions that stand for them are marked [Modelled from the spec];
      in them a [float] is read as the rational number it denotes and
      [+], [-], [*] are the exact operations of [Q].
    - The hidden state of the C library's [rand()] is passed explicitly. *)

From Stdlib Require Import ZArith QArith Qround Qabs Qpower Lia Lqa Bool String.
From Stdlib Require Import Floats.SpecFloat.
From stdpp Require Import base list.

Local Open Scope Z_scope.

(** ** Machine integers *)

Definition u32 (x : Z) : Z := x mod 2 ^ 32.

Definition is_s16 (s : Z) : Prop := -32768 <= s <= 32767.

(** [check_from n lo p] evaluates [p] on [lo], [lo+1], ..., [lo+n-1]. *)
Fixpoint check_from (n : nat) (lo : Z) (p : Z -> bool) : bool :=
  match n with
  | O => true
  | S k => p lo && check_from k (lo + 1) p
  end.

(** ** IEEE binary32, the [float] of the source *)

Module Binary32.

Definition prec : Z := 24.
Definition emax : Z := 128.

Definition float : Type := spec_float.

(** Conversion of an integer, as in the implicit [int -> float]. *)
Definition of_int (n : Z) : float := binary_normalize prec emax n 0 false.

Definition mul (x y : float) : float := SFmul prec emax x y.
Definition div (x y : float) : float := SFdiv prec emax x y.
Definition add (x y : float) : float := SFadd prec emax x y.
Definition sub (x y : float) : float := SFsub prec emax x y.

(** The rational number a finite float denotes. *)
Definition to_Q (x : float) : option Q :=
  match x with
  | S754_zero _ => Some 0%Q
  | S754_finite s m e =>
      let n := if s then Z.neg m else Z.pos m in
      Some match e with
           | Z0 => inject_Z n
           | Z.pos p => inject_Z (n * 2 ^ Z.pos p)
           | Z.neg p => Qmake n (2 ^ p)
           end
  | S754_infinity _ | S754_nan => None
  end.

(** Neither an infinity nor a NaN. *)
Definition is_finite (x : float) : bool :=
  match x with
  | S754_zero _ | S754_finite _ _ _ => true
  | S754_infinity _ | S754_nan => false
  end.

(** The literal [0.000030517578125f]: mantissa [2^23], exponent [-38]. *)
Definition lit_0_000030517578125 : float := S754_finite false 8388608 (-38).

End Binary32.

(** ** [Signed16ToFloat]

    [return s * 0.000030517578125f;] with [s] promoted to [int] and
    converted to [float] for the multiplication. *)

Definition Signed16ToFloat (s : Z) : Binary32.float :=
  Binary32.mul (Binary32.of_int s) Binary32.lit_0_000030517578125.

(** The value [Signed16ToFloat] is claimed to have. *)
Definition s16_over_32768 (s : Z) : Q := Qmake s 32768.

Definition Signed16ToFloat_exactb (s : Z) : bool :=
  match Binary32.to_Q (Signed16ToFloat s) with
  | Some q =>
      Qeq_bool q (s16_over_32768 s) && Qle_bool (-1) q && negb (Qle_bool 1 q)
  | None => false
  end.


(** The rational a float stands for where it is read as a number. *)
Definition float_value (x : Binary32.float) : Q := default 0%Q (Binary32.to_Q x).

(** ** Dithering *)

(** [rand()] of the C library: the largest value it returns, the type of its
    hidden state, one call, and [srand]. *)
Class CRand := {
  RAND_MAX : Z;
  rng : Type;
  rand : rng -> Z * rng;
  srand : Z -> rng
}.

(** [rndrcp] and [DITHER_NOISE] as functions of the platform's [RAND_MAX]
    and of the value [r] that [rand()] returns: every operation is rounded
    to [float], [rand()] is converted to [float] for the product, [8.f] and
    [4.f] are exact. *)
Module Binary32Noise.

(** [const float rndrcp = 8.f / float(RAND_MAX);] *)
Definition rndrcp (rand_max : Z) : Binary32.float :=
  Binary32.div (Binary32.of_int 8) (Binary32.of_int rand_max).

(** [((rand() * rndrcp) - 4.f)] for the value [r] of [rand()]. *)
Definition DITHER_NOISE (rand_max r : Z) : Binary32.float :=
  Binary32.sub (Binary32.mul (Binary32.of_int r) (rndrcp rand_max))
               (Binary32.of_int 4).

(** The check of one value of [rand()]: the noise is a finite number within
    [[-4, 4]] and within [2^-21] of the exact [r * 8 / rand_max - 4]. *)
Definition noise_okb (rand_max r : Z) : bool :=
  match Binary32.to_Q (DITHER_NOISE rand_max r) with
  | Some q =>
      Qle_bool (-4) q && Qle_bool q 4 &&
      Qle_bool (Qabs (q - (inject_Z r * (8 / inject_Z rand_max) - 4)))
               (1 # 2097152)
  | None => false
  end.

(** The check that the noise grows from [r] to [r + 1]. *)
Definition noise_growsb (rand_max r : Z) : bool :=
  SFltb (DITHER_NOISE rand_max r) (DITHER_NOISE rand_max (r + 1)).

End Binary32Noise.

(** The real number [r * 8 / rand_max - 4] that [DITHER_NOISE] approximates
    in [float]; it is what the noise is measured against, not what the code
    computes. *)
Definition exact_noise (rand_max r : Z) : Q :=
  (inject_Z r * (8 / inject_Z rand_max) - 4)%Q.

Section Dither.
Context `{CRand}.

(** [const float rndrcp = 8.f / float(RAND_MAX);] *)
Definition rndrcp : Binary32.float := Binary32Noise.rndrcp RAND_MAX.

(** [#define DITHER_NOISE ((rand() * rndrcp) - 4.f)]: one call of [rand()],
    whose value goes through the macro's expression. *)
Definition DITHER_NOISE (g : rng) : Binary32.float * rng :=
  let (r, g') := rand g in (Binary32Noise.DITHER_NOISE RAND_MAX r, g').

(** [TriangleDither(float& sample, float& prev_dither)]: returns the new
    [sample], the new [prev_dither] and the generator state.
    [sample += dither - prev_dither] subtracts, rounds, adds and rounds. *)
Definition TriangleDither (sample prev_dither : Binary32.float) (g : rng)
  : Binary32.float * Binary32.float * rng :=
  let (dither, g') := DITHER_NOISE g in
  (Binary32.add sample (Binary32.sub dither prev_dither), dither, g').

(** [n] consecutive draws of [DITHER_NOISE]. *)
Fixpoint noise (n : nat) (g : rng) : list Binary32.float * rng :=
  match n with
  | O => ([], g)
  | S k =>
      let (d, g1) := DITHER_NOISE g in
      let (ds, g2) := noise k g1 in
      (d :: ds, g2)
  end.

(** Consecutive calls of [TriangleDither], one per sample, all on the same
    [prev_dither] variable. *)
Fixpoint dither_run (samples : list Binary32.float)
    (prev_dither : Binary32.float) (g : rng)
  : list Binary32.float * Binary32.float * rng :=
  match samples with
  | [] => ([], prev_dither, g)
  | s :: rest =>
      let '(s', prev', g1) := TriangleDither s prev_dither g in
      let '(out, prev'', g2) := dither_run rest prev' g1 in
      (s' :: out, prev'', g2)
  end.

(** Modelled from the spec: the float-to-fixed pass of the [s16] overload
    of [CMixer::Mix], whose body is not in [Mixer.h] (section 4.3).  Every
    stereo frame of the mixed buffer is dithered, the left sample against
    [m_l_dither_prev] and the right one against [m_r_dither_prev]. *)
Fixpoint dither_frames (frames : list (Binary32.float * Binary32.float))
    (l_prev r_prev : Binary32.float) (g : rng)
  : list (Binary32.float * Binary32.float) * Binary32.float * Binary32.float
    * rng :=
  match frames with
  | [] => ([], l_prev, r_prev, g)
  | (l, r) :: rest =>
      let '(l', l_prev', g1) := TriangleDither l l_prev g in
      let '(r', r_prev', g2) := TriangleDither r r_prev g1 in
      let '(out, lp, rp, g3) := dither_frames rest l_prev' r_prev' g2 in
      ((l', r') :: out, lp, rp, g3)
  end.

(** [n] pairs of consecutive draws: the one the left channel receives and
    the one the right channel receives. *)
Fixpoint noise_pairs (n : nat) (g : rng)
  : list (Binary32.float * Binary32.float) * rng :=
  match n with
  | O => ([], g)
  | S k =>
      let (dl, g1) := DITHER_NOISE g in
      let (dr, g2) := DITHER_NOISE g1 in
      let (ds, g3) := noise_pairs k g2 in
      ((dl, dr) :: ds, g3)
  end.

End Dither.

(** The bounds the comment above [rndrcp] gives for the noise.  The
    amplitude of the noise, [4], is the dither range the round trip of a
    constant signal is stated with. *)
Definition DITHER_MIN : Q := (-4)%Q.
Definition DITHER_MAX : Q := 4%Q.
Definition dither_range : Q := DITHER_MAX.

(** A dither state that is finite and within the noise range. *)
Definition in_noise_range (x : Binary32.float) : Prop :=
  exists v : Q, Binary32.to_Q x = Some v /\ (DITHER_MIN <= v <= DITHER_MAX)%Q.

(** A finite sample of a magnitude of at most [2^b - 8]. *)
Definition sample_below (b : Z) (s : Binary32.float) : Prop :=
  exists v : Q, Binary32.to_Q s = Some v /\ (Qabs v <= 2 ^ b - 8)%Q.

(** What triangular dithering is for one channel: sample [k] receives the
    difference between dither [k] and the dither before it, the first one
    being measured against [prev]. *)
Fixpoint triangle (samples dithers : list Binary32.float)
    (prev : Binary32.float) : list Binary32.float :=
  match samples, dithers with
  | s :: ss, d :: ds => Binary32.add s (Binary32.sub d prev) :: triangle ss ds d
  | _, _ => []
  end.

(** What each sample of a run was moved by, and the sum of it. *)
Definition offsets (outs ins : list Binary32.float) : list Q :=
  zip_with (fun o i => (float_value o - float_value i)%Q) outs ins.

Fixpoint total_offset (outs ins : list Binary32.float) : Q :=
  match outs, ins with
  | o :: os, i :: is_ =>
      ((float_value o - float_value i) + total_offset os is_)%Q
  | _, _ => 0%Q
  end.

(** The rounding a run of [n] calls can add up to on samples below [2^b]:
    one unit [2^(b-24)] of the sum and one unit [2^-21] of the difference
    of two dither values for each call. *)
Definition rounding_slack (b : Z) (n : nat) : Q :=
  (inject_Z (Z.of_nat n) * (2 ^ (b - 24) + 2 ^ (-21)))%Q.

(** The generator of the Microsoft C runtime, a concrete [rand()]. *)
Definition msvc_rand (seed : Z) : Z * Z :=
  let seed' := u32 (seed * 214013 + 2531011) in
  (Z.land (Z.shiftr seed' 16) 32767, seed').

Definition msvc_CRand : CRand :=
  {| RAND_MAX := 32767; rng := Z; rand := msvc_rand; srand := fun s => s |}.

(** ** The engine's data *)

(** [static const u32 MAX_SAMPLES = 2048;]
    [static const u32 INDEX_MASK = MAX_SAMPLES * 2 - 1;] *)
Definition MAX_SAMPLES : Z := 2048.
Definition INDEX_MASK : Z := u32 (u32 (MAX_SAMPLES * 2) - 1).

(** The number of elements of [std::array<float, MAX_SAMPLES * 2>]. *)
Definition FLOAT_BUFFER_SIZE : Z := u32 (MAX_SAMPLES * 2).

(** [LOW_WATERMARK], [MAX_FREQ_SHIFT], [CONTROL_FACTOR] and [CONTROL_AVG]
    are declared [static const float] in the class; their values are given
    elsewhere.  [TARGET_CAPACITY] is the window the spec measures the fill
    of a fifo against. *)
Class MixerConstants := {
  LOW_WATERMARK : Q;
  MAX_FREQ_SHIFT : Q;
  CONTROL_FACTOR : Q;
  CONTROL_AVG : Q;
  TARGET_CAPACITY : Q
}.

(** The two classes derived from [MixerFifo], which differ in
    [Interpolate] only. *)
Inductive Kernel : Type := LinearMixerFifo | CubicMixerFifo.

(** [class MixerFifo]; [m_kernel] tells which derived class the object
    belongs to; the back pointer [m_mixer] is left out, the operations that
    need the engine's sample rate receive it. *)
Record MixerFifo : Type := {
  m_kernel : Kernel;
  m_input_sample_rate : Z;
  m_float_buffer : list Q;
  m_write_index : Z;
  m_read_index : Z;
  m_lvolume : Z;
  m_rvolume : Z;
  m_num_left_i : Q;
  m_fraction : Q
}.

(** Modelled from the spec: [WaveFileWriter] comes from
    [AudioCommon/WaveFile.h], which is not among the sources.  It is a sink with
    [Start(path, rate)], [Stop()] and [SetSkipSilence(bool)]; its state is
    the sequence of calls it has received, latest first. *)
Inductive WaveCall : Type :=
  | WaveStart (filename : string) (rate : Z)
  | WaveSetSkipSilence (skip : bool)
  | WaveStop.

Record WaveFileWriter : Type := { wave_calls : list WaveCall }.

(** Modelled from the spec: [WaveFileWriter::Start] of the absent
    [WaveFile.h]; the sink records the call. *)
Definition Wave_Start (filename : string) (rate : Z) (w : WaveFileWriter) :=
  {| wave_calls := WaveStart filename rate :: wave_calls w |}.

(** Modelled from the spec: [WaveFileWriter::SetSkipSilence] of the absent
    [WaveFile.h]; the sink records the call. *)
Definition Wave_SetSkipSilence (skip : bool) (w : WaveFileWriter) :=
  {| wave_calls := WaveSetSkipSilence skip :: wave_calls w |}.

(** Modelled from the spec: [WaveFileWriter::Stop] of the absent
    [WaveFile.h]; the sink records the call. *)
Definition Wave_Stop (w : WaveFileWriter) :=
  {| wave_calls := WaveStop :: wave_calls w |}.

(** [class CMixer]; [m_cs_mixing], a mutex, has no counterpart here. *)
Record CMixer : Type := {
  m_dma_mixer : MixerFifo;
  m_streaming_mixer : MixerFifo;
  m_wiimote_speaker_mixer : MixerFifo;
  m_sample_rate : Z;
  g_wave_writer_dtk : WaveFileWriter;
  g_wave_writer_dsp : WaveFileWriter;
  m_log_dtk_audio : bool;
  m_log_dsp_audio : bool;
  m_speed : Q;
  m_output_buffer : list Q;
  m_l_dither_prev : Binary32.float;
  m_r_dither_prev : Binary32.float
}.

(** The three fifos of an engine, in the order of their declaration. *)
Definition fifos (m : CMixer) : list MixerFifo :=
  [m_dma_mixer m; m_streaming_mixer m; m_wiimote_speaker_mixer m].

(** The log macros write lines to the process log, latest first. *)
Inductive LogLevel : Type := INFO_LOG | NOTICE_LOG | WARN_LOG.
Inductive LogType : Type := AUDIO_INTERFACE | DSPHLE.
Definition LogLine : Type := (LogLevel * LogType * string)%type.

(** ** Construction *)

(** What a [MixerFifo] finds when it is constructed: the value of
    [time(nullptr)] and the content of the memory of [m_float_buffer],
    which the constructor does not initialise. *)
Record FifoInit : Type := {
  init_time : Z;
  init_memory : nat -> Q
}.

(** [MixerFifo(CMixer *mixer, unsigned sample_rate)] of the derived class
    [kernel]: the member initialisers. *)
Definition MixerFifo_init (kernel : Kernel) (sample_rate : Z) (i : FifoInit)
  : MixerFifo :=
  {| m_kernel := kernel;
     m_input_sample_rate := sample_rate;
     m_float_buffer := map (init_memory i) (seq 0 (Z.to_nat FLOAT_BUFFER_SIZE));
     m_write_index := 0;
     m_read_index := 0;
     m_lvolume := 255;
     m_rvolume := 255;
     m_num_left_i := 0%Q;
     m_fraction := 0%Q |}.

(** The constructor with its body, [srand((u32)time(nullptr))], which
    replaces the state of the generator. *)
Definition MixerFifo_new `{CRand} (kernel : Kernel) (sample_rate : Z)
    (i : FifoInit) : MixerFifo * rng :=
  (MixerFifo_init kernel sample_rate i, srand (u32 (init_time i))).

(** [CMixer(u32 BackendSampleRate)]: the members are initialised in the
    order of their declaration, then the body logs one line. *)
Definition CMixer_new `{CRand} (BackendSampleRate : Z)
    (i_dma i_streaming i_wiimote : FifoInit) (log : list LogLine)
  : CMixer * rng * list LogLine :=
  let (dma, g1) := MixerFifo_new CubicMixerFifo 32000 i_dma in
  let (streaming, g2) := MixerFifo_new CubicMixerFifo 48000 i_streaming in
  let (wiimote, g3) := MixerFifo_new LinearMixerFifo 3000 i_wiimote in
  ({| m_dma_mixer := dma;
      m_streaming_mixer := streaming;
      m_wiimote_speaker_mixer := wiimote;
      m_sample_rate := BackendSampleRate;
      g_wave_writer_dtk := {| wave_calls := [] |};
      g_wave_writer_dsp := {| wave_calls := [] |};
      m_log_dtk_audio := false;
      m_log_dsp_audio := false;
      m_speed := 0%Q;
      m_output_buffer := [];
      m_l_dither_prev := Binary32.of_int 0;
      m_r_dither_prev := Binary32.of_int 0 |},
   g3,
   (INFO_LOG, AUDIO_INTERFACE, "Mixer is initialized"%string) :: log).

(** ** Logging to wave files *)

Definition set_dtk (on : bool) (w : WaveFileWriter) (m : CMixer) : CMixer :=
  {| m_dma_mixer := m_dma_mixer m;
     m_streaming_mixer := m_streaming_mixer m;
     m_wiimote_speaker_mixer := m_wiimote_speaker_mixer m;
     m_sample_rate := m_sample_rate m;
     g_wave_writer_dtk := w;
     g_wave_writer_dsp := g_wave_writer_dsp m;
     m_log_dtk_audio := on;
     m_log_dsp_audio := m_log_dsp_audio m;
     m_speed := m_speed m;
     m_output_buffer := m_output_buffer m;
     m_l_dither_prev := m_l_dither_prev m;
     m_r_dither_prev := m_r_dither_prev m |}.

Definition set_dsp (on : bool) (w : WaveFileWriter) (m : CMixer) : CMixer :=
  {| m_dma_mixer := m_dma_mixer m;
     m_streaming_mixer := m_streaming_mixer m;
     m_wiimote_speaker_mixer := m_wiimote_speaker_mixer m;
     m_sample_rate := m_sample_rate m;
     g_wave_writer_dtk := g_wave_writer_dtk m;
     g_wave_writer_dsp := w;
     m_log_dtk_audio := m_log_dtk_audio m;
     m_log_dsp_audio := on;
     m_speed := m_speed m;
     m_output_buffer := m_output_buffer m;
     m_l_dither_prev := m_l_dither_prev m;
     m_r_dither_prev := m_r_dither_prev m |}.

Definition StartLogDTKAudio (filename : string) (m : CMixer)
    (log : list LogLine) : CMixer * list LogLine :=
  if negb (m_log_dtk_audio m) then
    (set_dtk true
       (Wave_SetSkipSilence false (Wave_Start filename 48000 (g_wave_writer_dtk m)))
       m,
     (NOTICE_LOG, DSPHLE, "Starting DTK Audio logging"%string) :: log)
  else
    (m, (WARN_LOG, DSPHLE,
         "DTK Audio logging has already been started"%string) :: log).

Definition StopLogDTKAudio (m : CMixer) (log : list LogLine)
  : CMixer * list LogLine :=
  if m_log_dtk_audio m then
    (set_dtk false (Wave_Stop (g_wave_writer_dtk m)) m,
     (NOTICE_LOG, DSPHLE, "Stopping DTK Audio logging"%string) :: log)
  else
    (m, (WARN_LOG, DSPHLE,
         "DTK Audio logging has already been stopped"%string) :: log).

Definition StartLogDSPAudio (filename : string) (m : CMixer)
    (log : list LogLine) : CMixer * list LogLine :=
  if negb (m_log_dsp_audio m) then
    (set_dsp true
       (Wave_SetSkipSilence false (Wave_Start filename 32000 (g_wave_writer_dsp m)))
       m,
     (NOTICE_LOG, DSPHLE, "Starting DSP Audio logging"%string) :: log)
  else
    (m, (WARN_LOG, DSPHLE,
         "DSP Audio logging has already been started"%string) :: log).

Definition StopLogDSPAudio (m : CMixer) (log : list LogLine)
  : CMixer * list LogLine :=
  if m_log_dsp_audio m then
    (set_dsp false (Wave_Stop (g_wave_writer_dsp m)) m,
     (NOTICE_LOG, DSPHLE, "Stopping DSP Audio logging"%string) :: log)
  else
    (m, (WARN_LOG, DSPHLE,
         "DSP Audio logging has already been stopped"%string) :: log).

(** ** The ring buffer of a fifo *)

(** A stereo frame, left sample first. *)
Definition frame : Type := (Q * Q)%type.
Definition silence : frame := (0%Q, 0%Q).


(** A stereo pair of [float]s of the output buffer, left sample first. *)
Definition sample_pair : Type := (Binary32.float * Binary32.float)%type.




(** The float of [m_float_buffer] with index [index]: the index is masked
    with [INDEX_MASK] on every access. *)
Definition buffer_get (buf : list Q) (i : Z) : Q :=
  default 0%Q (buf !! Z.to_nat i).

Definition float_at (buf : list Q) (index : Z) : Q :=
  buffer_get buf (Z.land (u32 index) INDEX_MASK).

(** [m_write_index] and [m_read_index] count frames.  Frame number [k]
    occupies the two neighbouring floats with the indices [2 * k] (left)
    and [2 * k + 1] (right). *)
Definition left_index (k : Z) : Z := Z.land (u32 (2 * k)) INDEX_MASK.
Definition right_index (k : Z) : Z := Z.land (u32 (2 * k + 1)) INDEX_MASK.


Definition with_ring (buf : list Q) (w r : Z) (f : MixerFifo) : MixerFifo :=
  {| m_kernel := m_kernel f;
     m_input_sample_rate := m_input_sample_rate f;
     m_float_buffer := buf;
     m_write_index := w;
     m_read_index := r;
     m_lvolume := m_lvolume f;
     m_rvolume := m_rvolume f;
     m_num_left_i := m_num_left_i f;
     m_fraction := m_fraction f |}.

Definition with_control (num_left_i fraction : Q) (f : MixerFifo) : MixerFifo :=
  {| m_kernel := m_kernel f;
     m_input_sample_rate := m_input_sample_rate f;
     m_float_buffer := m_float_buffer f;
     m_write_index := m_write_index f;
     m_read_index := m_read_index f;
     m_lvolume := m_lvolume f;
     m_rvolume := m_rvolume f;
     m_num_left_i := num_left_i;
     m_fraction := fraction |}.

(** The ring buffer operations of section 4.1 of the spec follow;
    [MixerFifo::PushSamples], [MixerFifo::Mix] and
    [MixerFifo::AvailableSamples], declared in [Mixer.h] and defined
    elsewhere, are built from them. *)

(** Modelled from the spec: the unread frames of the absent fifo code,
    [write_index - read_index] modulo [2^32] (section 3). *)
Definition unread (f : MixerFifo) : Z :=
  u32 (m_write_index f - m_read_index f).

(** Modelled from the spec: [available()] of the absent fifo code, the
    unread-frame count clamped to [[0, N]] (section 4.1). *)
Definition available (f : MixerFifo) : Z :=
  Z.max 0 (Z.min MAX_SAMPLES (unread f)).

(** Modelled from the spec: [push(frame)] of the absent
    [MixerFifo::PushSamples] (section 4.1).  It writes the frame at the
    masked write index and increments [write_index]; nothing is tested and
    [read_index], which belongs to the consumer, is not touched. *)
Definition push (fr : frame) (f : MixerFifo) : MixerFifo :=
  let w := m_write_index f in
  with_ring
    (<[Z.to_nat (right_index w) := snd fr]>
       (<[Z.to_nat (left_index w) := fst fr]> (m_float_buffer f)))
    (u32 (w + 1)) (m_read_index f) f.

(** Modelled from the spec: [advance_read(n)] of the absent
    [MixerFifo::Mix] (section 4.1). *)
Definition advance_read (n : Z) (f : MixerFifo) : MixerFifo :=
  with_ring (m_float_buffer f) (m_write_index f) (u32 (m_read_index f + n)) f.

(** A stereo pair of 16-bit samples as a frame: each sample goes through
    [Signed16ToFloat]. *)
Definition to_frame (s : Z * Z) : frame :=
  (float_value (Signed16ToFloat (fst s)), float_value (Signed16ToFloat (snd s))).

Definition push_frames (frames : list frame) (f : MixerFifo) : MixerFifo :=
  fold_left (fun acc fr => push fr acc) frames f.

(** Modelled from the spec: [MixerFifo::PushSamples], whose body is not in
    [Mixer.h] (section 4.2 [push]).  [samples] holds [num_samples] stereo
    pairs; each is converted and pushed, in order. *)
Definition PushSamples (samples : list (Z * Z)) (f : MixerFifo) : MixerFifo :=
  push_frames (map to_frame samples) f.

(** The array of a fifo has its declared size. *)
Definition storage_ok (f : MixerFifo) : Prop :=
  length (m_float_buffer f) = Z.to_nat FLOAT_BUFFER_SIZE.

(** ** Interpolation *)

(** The two kernels of section 4.2 step 3.  Linear:
    [sample[i]*(1-f) + sample[i+1]*f].  Cubic: the Catmull-Rom polynomial
    through the frames [i-1 .. i+2]. *)
Definition lerp (a b t : Q) : Q := (a * (1 - t) + b * t)%Q.

Definition catmull_rom (p0 p1 p2 p3 t : Q) : Q :=
  ((1 # 2) * (2 * p1 + (p2 - p0) * t
              + (2 * p0 - 5 * p1 + 4 * p2 - p3) * (t * t)
              + (3 * p1 - p0 - 3 * p2 + p3) * (t * t * t)))%Q.

(** The frame [offset] frames after the one at [left_input_index]. *)
Definition input_frame (f : MixerFifo) (left_input_index offset : Z) : frame :=
  (float_at (m_float_buffer f) (left_input_index + 2 * offset),
   float_at (m_float_buffer f) (left_input_index + 2 * offset + 1)).

(** Modelled from the spec: the two overriding bodies of
    [Interpolate(u32 left_input_index, float* left_output, float* right_output)],
    which are not in [Mixer.h] (section 4.2 step 3).  [left_input_index] is
    the index of the left float of the frame [i] the position falls in, the
    fraction is [m_fraction], and the two outputs are returned as a frame. *)
Definition Interpolate (f : MixerFifo) (left_input_index : Z) : frame :=
  let t := m_fraction f in
  match m_kernel f with
  | LinearMixerFifo =>
      let a := input_frame f left_input_index 0 in
      let b := input_frame f left_input_index 1 in
      (lerp (fst a) (fst b) t, lerp (snd a) (snd b) t)
  | CubicMixerFifo =>
      let p0 := input_frame f left_input_index (-1) in
      let p1 := input_frame f left_input_index 0 in
      let p2 := input_frame f left_input_index 1 in
      let p3 := input_frame f left_input_index 2 in
      (catmull_rom (fst p0) (fst p1) (fst p2) (fst p3) t,
       catmull_rom (snd p0) (snd p1) (snd p2) (snd p3) t)
  end.

(** The index of the left float of the frame at the read index. *)
Definition read_cursor (f : MixerFifo) : Z := u32 (2 * m_read_index f).

(** ** Rate control and pulling *)

(** Modelled from the spec: the clamp of a value to [[lo, hi]] used by the
    absent bodies of [MixerFifo::Mix] and [CMixer::Mix]. *)
Definition Clamp (x lo hi : Q) : Q :=
  if Qlt_le_dec x lo then lo
  else if Qlt_le_dec hi x then hi
  else x.

Section Pull.
Context `{MixerConstants}.

(** The rate controller of section 4.2 step 2 follows; it is part of the
    absent body of [MixerFifo::Mix].  The moving average of the error is
    kept in [m_num_left_i]. *)

(** Modelled from the spec: the controller's error,
    [fill_fraction - low_watermark]. *)
Definition control_error (fill_fraction : Q) : Q :=
  (fill_fraction - LOW_WATERMARK)%Q.

(** Modelled from the spec: the controller's exponential moving average
    of the error with smoothing constant [CONTROL_AVG]. *)
Definition control_average (avg error : Q) : Q :=
  (avg + (error - avg) / CONTROL_AVG)%Q.

(** Modelled from the spec: the controller's frequency shift, the averaged
    error times [CONTROL_FACTOR], clamped to
    [[1 - MAX_FREQ_SHIFT, 1 + MAX_FREQ_SHIFT]]. *)
Definition frequency_shift (avg : Q) : Q :=
  Clamp (avg * CONTROL_FACTOR)%Q (1 - MAX_FREQ_SHIFT)%Q (1 + MAX_FREQ_SHIFT)%Q.

(** Modelled from the spec: one step of the controller, giving the new
    average and the shift. *)
Definition control_step (avg fill_fraction : Q) : Q * Q :=
  let avg' := control_average avg (control_error fill_fraction) in
  (avg', frequency_shift avg').

(** The shifts the controller computes for a sequence of fill fractions. *)
Fixpoint control_run (avg : Q) (fills : list Q) : list Q :=
  match fills with
  | [] => []
  | x :: rest =>
      let (avg', shift) := control_step avg x in
      shift :: control_run avg' rest
  end.

(** Modelled from the spec: [available_output_frames()], the absent
    [MixerFifo::AvailableSamples] (section 4.2): the buffered frames counted
    at the output rate, rounded down. *)
Definition available_output_frames (f : MixerFifo) (output_rate : Z) : Z :=
  available f * output_rate / m_input_sample_rate f.

(** Modelled from the spec: steps 1 and 2 of the pull of the absent
    [MixerFifo::Mix], giving the ratio of this call and the fifo with the
    controller's state updated.  Without [honor_rate_limit] the controller
    is bypassed and the ratio is the nominal one. *)
Definition pull_ratio (output_rate : Z) (honor_rate_limit : bool)
    (f : MixerFifo) : Q * MixerFifo :=
  let nominal := (inject_Z (m_input_sample_rate f) / inject_Z output_rate)%Q in
  if honor_rate_limit then
    let fill :=
      (inject_Z (available_output_frames f output_rate) / TARGET_CAPACITY)%Q in
    let (avg, shift) := control_step (m_num_left_i f) fill in
    ((nominal * shift)%Q, with_control avg (m_fraction f) f)
  else (nominal, f).

(** Modelled from the spec: steps 3 to 5 of the pull of the absent
    [MixerFifo::Mix] for one output frame.  With a readable frame left the
    kernel is evaluated at the read cursor, the position moves on by
    [ratio], the whole frames passed are consumed (no more than are
    unread) and the rest stays in [m_fraction]; with none left the frame
    is silence and the fifo stays as it is. *)
Definition pull_frame (ratio : Q) (f : MixerFifo) : frame * MixerFifo :=
  if 0 <? available f then
    let out := Interpolate f (read_cursor f) in
    let pos := (m_fraction f + ratio)%Q in
    let consumed := Z.min (Qfloor pos) (unread f) in
    (out,
     advance_read consumed
       (with_control (m_num_left_i f) (pos - inject_Z (Qfloor pos))%Q f))
  else (silence, f).

Fixpoint pull_frames (n : nat) (ratio : Q) (f : MixerFifo)
  : list frame * MixerFifo :=
  match n with
  | O => ([], f)
  | S k =>
      let (out, f1) := pull_frame ratio f in
      let (outs, f2) := pull_frames k ratio f1 in
      (out :: outs, f2)
  end.

(** The fifo as it is after [j] output frames of a pull. *)
Definition fifo_after (j : nat) (ratio : Q) (f : MixerFifo) : MixerFifo :=
  snd (pull_frames j ratio f).

(** Modelled from the spec: [MixerFifo::Mix], whose body is not in
    [Mixer.h], as the [pull] of section 4.2.  It returns the number of
    frames produced (step 6), the frames and the fifo. *)
Definition pull (output_frame_count : Z) (output_rate : Z)
    (honor_rate_limit : bool) (f : MixerFifo) : Z * list frame * MixerFifo :=
  let (ratio, f1) := pull_ratio output_rate honor_rate_limit f in
  let (out, f2) := pull_frames (Z.to_nat output_frame_count) ratio f1 in
  (Z.of_nat (length out), out, f2).

End Pull.

(** ** Mixing *)

Definition with_fifos (dma streaming wiimote : MixerFifo) (m : CMixer) : CMixer :=
  {| m_dma_mixer := dma;
     m_streaming_mixer := streaming;
     m_wiimote_speaker_mixer := wiimote;
     m_sample_rate := m_sample_rate m;
     g_wave_writer_dtk := g_wave_writer_dtk m;
     g_wave_writer_dsp := g_wave_writer_dsp m;
     m_log_dtk_audio := m_log_dtk_audio m;
     m_log_dsp_audio := m_log_dsp_audio m;
     m_speed := m_speed m;
     m_output_buffer := m_output_buffer m;
     m_l_dither_prev := m_l_dither_prev m;
     m_r_dither_prev := m_r_dither_prev m |}.

Definition with_dither (l_prev r_prev : Binary32.float) (m : CMixer)
  : CMixer :=
  {| m_dma_mixer := m_dma_mixer m;
     m_streaming_mixer := m_streaming_mixer m;
     m_wiimote_speaker_mixer := m_wiimote_speaker_mixer m;
     m_sample_rate := m_sample_rate m;
     g_wave_writer_dtk := g_wave_writer_dtk m;
     g_wave_writer_dsp := g_wave_writer_dsp m;
     m_log_dtk_audio := m_log_dtk_audio m;
     m_log_dsp_audio := m_log_dsp_audio m;
     m_speed := m_speed m;
     m_output_buffer := m_output_buffer m;
     m_l_dither_prev := l_prev;
     m_r_dither_prev := r_prev |}.

(** Modelled from the spec: the dithering pass of the [s16] overload of
    [CMixer::Mix], whose body is not in [Mixer.h], on the engine: the two
    dither states are the members [m_l_dither_prev] and [m_r_dither_prev],
    read at the start of the pass and stored at its end. *)
Definition CMixer_dither `{CRand} (frames : list sample_pair) (m : CMixer)
    (g : rng)
  : list sample_pair * CMixer * rng :=
  let '(out, l_prev, r_prev, g') :=
    dither_frames frames (m_l_dither_prev m) (m_r_dither_prev m) g in
  (out, with_dither l_prev r_prev m, g').

(** Modelled from the spec: the volume scaling of the absent
    [CMixer::Mix]; a volume of [0..255] is applied as [value / 256]
    (section 4.2 [set_volume]). *)
Definition scale_volume (volume : Z) (x : Q) : Q := (x * (inject_Z volume / 256))%Q.

(** Modelled from the spec: the accumulation step of the absent
    [CMixer::Mix]: the frames pulled from [f], scaled by its volume, are
    added to the output (section 4.3). *)
Definition accumulate (f : MixerFifo) (acc pulled : list frame) : list frame :=
  zip_with
    (fun a p => ((fst a + scale_volume (m_lvolume f) (fst p))%Q,
                 (snd a + scale_volume (m_rvolume f) (snd p))%Q))
    acc pulled.

(** Modelled from the spec: the clamp of the absent [CMixer::Mix] to
    [[-1, 1]] (section 4.3). *)
Definition clamp_frame (fr : frame) : frame :=
  (Clamp (fst fr) (-1) 1, Clamp (snd fr) (-1) 1).

(** Modelled from the spec: the [float] overload of [CMixer::Mix], whose
    body is not in [Mixer.h] (section 4.3 [mix]).  Each fifo is pulled for
    [numSamples] frames, scaled by its volume and added to the output,
    which is clamped to [[-1, 1]]; the number of frames written is
    returned. *)
Definition CMixer_Mix `{MixerConstants} (numSamples : Z)
    (consider_framelimit : bool) (m : CMixer) : Z * list frame * CMixer :=
  let rate := m_sample_rate m in
  let '(_, out1, dma) := pull numSamples rate consider_framelimit (m_dma_mixer m) in
  let '(_, out2, streaming) :=
    pull numSamples rate consider_framelimit (m_streaming_mixer m) in
  let '(_, out3, wiimote) :=
    pull numSamples rate consider_framelimit (m_wiimote_speaker_mixer m) in
  let acc0 := replicate (Z.to_nat numSamples) silence in
  let acc1 := accumulate dma acc0 out1 in
  let acc2 := accumulate streaming acc1 out2 in
  let acc3 := accumulate wiimote acc2 out3 in
  let out := map clamp_frame acc3 in
  (Z.of_nat (length out), out, with_fifos dma streaming wiimote m).


(** ** States a fifo can reach *)

(** A fifo starts as its constructor leaves it and changes by pushes of any
    number of frames and by pulls. *)
Inductive reachable : MixerFifo -> Prop :=
  | reach_init kernel sample_rate i :
      reachable (MixerFifo_init kernel sample_rate i)
  | reach_push samples f :
      reachable f -> reachable (PushSamples samples f)
  | reach_pull (C : MixerConstants) count output_rate honor f :
      reachable f -> reachable (snd (pull count output_rate honor f)).

(** ** Concrete data the statements below are evaluated on *)

Definition sample_constants : MixerConstants :=
  {| LOW_WATERMARK := (1 # 2)%Q;
     MAX_FREQ_SHIFT := (1 # 200)%Q;
     CONTROL_FACTOR := (1 # 5)%Q;
     CONTROL_AVG := 32%Q;
     TARGET_CAPACITY := 2048%Q |}.

Definition zero_init : FifoInit := {| init_time := 0; init_memory := fun _ => 0%Q |}.

Definition fresh_mixer : CMixer :=
  fst (fst (CMixer_new (H := msvc_CRand) 48000 zero_init zero_init zero_init [])).

(** An engine with both logs started. *)
Definition logging_mixer : CMixer :=
  fst (StartLogDSPAudio "dsp.wav"
         (fst (StartLogDTKAudio "dtk.wav" fresh_mixer [])) []).

Definition fresh_dma : MixerFifo := MixerFifo_init CubicMixerFifo 32000 zero_init.
Definition fresh_streaming : MixerFifo := MixerFifo_init CubicMixerFifo 48000 zero_init.


(** The [float] nearest to [0.1]. *)
Definition lit_0_1 : Binary32.float := S754_finite false 13421773 (-27).

(** ** Further inline members of [CMixer] *)

(** [u32 GetSampleRate() const { return m_sample_rate; }] *)
Definition GetSampleRate (m : CMixer) : Z := m_sample_rate m.

(** [float GetCurrentSpeed() const { return m_speed; }] *)
Definition GetCurrentSpeed (m : CMixer) : Q := m_speed m.

(** [void UpdateSpeed(volatile float val) { m_speed = val; }] *)
Definition UpdateSpeed (val : Q) (m : CMixer) : CMixer :=
  {| m_dma_mixer := m_dma_mixer m;
     m_streaming_mixer := m_streaming_mixer m;
     m_wiimote_speaker_mixer := m_wiimote_speaker_mixer m;
     m_sample_rate := m_sample_rate m;
     g_wave_writer_dtk := g_wave_writer_dtk m;
     g_wave_writer_dsp := g_wave_writer_dsp m;
     m_log_dtk_audio := m_log_dtk_audio m;
     m_log_dsp_audio := m_log_dsp_audio m;
     m_speed := val;
     m_output_buffer := m_output_buffer m;
     m_l_dither_prev := m_l_dither_prev m;
     m_r_dither_prev := m_r_dither_prev m |}.

(** A call of one of the members that [Mixer.h] defines inline. *)
Inductive ControlCall : Type :=
  | CallStartLogDTKAudio (filename : string)
  | CallStopLogDTKAudio
  | CallStartLogDSPAudio (filename : string)
  | CallStopLogDSPAudio
  | CallUpdateSpeed (val : Q).

Definition is_dtk_call (c : ControlCall) : bool :=
  match c with
  | CallStartLogDTKAudio _ | CallStopLogDTKAudio => true
  | _ => false
  end.

Definition is_dsp_call (c : ControlCall) : bool :=
  match c with
  | CallStartLogDSPAudio _ | CallStopLogDSPAudio => true
  | _ => false
  end.

(** One call, on the engine and the process log. *)
Definition call (c : ControlCall) (st : CMixer * list LogLine)
  : CMixer * list LogLine :=
  match c with
  | CallStartLogDTKAudio filename => StartLogDTKAudio filename (fst st) (snd st)
  | CallStopLogDTKAudio => StopLogDTKAudio (fst st) (snd st)
  | CallStartLogDSPAudio filename => StartLogDSPAudio filename (fst st) (snd st)
  | CallStopLogDSPAudio => StopLogDSPAudio (fst st) (snd st)
  | CallUpdateSpeed val => (UpdateSpeed val (fst st), snd st)
  end.

(** A sequence of calls, first call first. *)
Definition calls (cs : list ControlCall) (st : CMixer * list LogLine)
  : CMixer * list LogLine :=
  fold_left (fun acc c => call c acc) cs st.

(** What the calls a wave writer has received (latest first) amount to:
    [Some started] when they came as [Start(name, rate)] directly followed
    by [SetSkipSilence(false)], then [Stop()], and so on in turn, starting
    from a writer that is not started; [None] for any other record (a start
    of a started writer, a stop of a stopped one, another rate, silence
    skipping switched on). *)
Fixpoint writer_state (rate : Z) (received : list WaveCall) : option bool :=
  match received with
  | [] => Some false
  | WaveStop :: rest =>
      match writer_state rate rest with
      | Some true => Some false
      | _ => None
      end
  | WaveSetSkipSilence skip :: rest =>
      match rest with
      | WaveStart _ r :: rest' =>
          if negb skip && (r =? rate) then
            match writer_state rate rest' with
            | Some false => Some true
            | _ => None
            end
          else None
      | _ => None
      end
  | WaveStart _ _ :: _ => None
  end.

(** The wave writers agree with the two booleans. *)
Definition writers_follow_flags (m : CMixer) : Prop :=
  writer_state 48000 (wave_calls (g_wave_writer_dtk m))
    = Some (m_log_dtk_audio m) /\
  writer_state 32000 (wave_calls (g_wave_writer_dsp m))
    = Some (m_log_dsp_audio m).

(** The value of the last [UpdateSpeed] among the calls, [speed] without
    one. *)
Definition last_speed (cs : list ControlCall) (speed : Q) : Q :=
  fold_left
    (fun acc c => match c with CallUpdateSpeed val => val | _ => acc end)
    cs speed.

(** The engine the examples start from, with its log. *)
Definition fresh_state : CMixer * list LogLine :=
  (fst (fst (CMixer_new (H := msvc_CRand) 48000 zero_init zero_init zero_init [])),
   snd (CMixer_new (H := msvc_CRand) 48000 zero_init zero_init zero_init [])).

(** ** Notions the rounding proofs are stated with *)

(** The state of the shifting loop of [SpecFloat] after [k] steps on the
    mantissa [m0]: the mantissa is [m0 / 2^k], and the round and sticky
    bits are clear exactly when nothing was shifted out. *)
Definition shifted (m0 : Z) (k : Z) (mrs : shr_record) : Prop :=
  shr_m mrs = m0 / 2 ^ k /\
  (shr_r mrs || shr_s mrs = false <-> m0 mod 2 ^ k = 0).

(** What a rounded result is made of: the sign [s], and the magnitude [W]
    in units of [2^E]. *)
Definition encodes (s : bool) (W E : Z) (r : spec_float) : Prop :=
  (W = 0 /\ r = S754_zero s) \/
  (exists (m : positive) (e2 : Z),
     r = S754_finite s m e2 /\ E <= e2 <= 104 /\ Z.pos m * 2 ^ (e2 - E) = W).

(** The number [n * 2^e], as [Binary32.to_Q] writes it. *)
Definition dyadic (n e : Z) : Q :=
  match e with
  | Z0 => inject_Z n
  | Z.pos p => inject_Z (n * 2 ^ Z.pos p)
  | Z.neg p => Qmake n (2 ^ p)
  end.

(** A number some [float] denotes: a mantissa of at most 24 bits and an
    exponent in range. *)
Definition representable (q : Q) : Prop :=
  exists a k : Z, Z.abs a <= 2 ^ 24 /\ -149 <= k <= 100 /\ (q == dyadic a k)%Q.

(** The two neighbours of [x] among the multiples of [2^u]. *)
Definition grid_floor (u : Z) (x : Q) : Q := dyadic (Qfloor (x * 2 ^ (- u))) u.
Definition grid_ceiling (u : Z) (x : Q) : Q := dyadic (Qceiling (x * 2 ^ (- u))) u.

(** [q] is a multiple of [2^u]. *)
Definition multiple_of_2pow (u : Z) (q : Q) : Prop :=
  exists j : Z, (q == dyadic j u)%Q.

(** What the bound of the noise asks of [RAND_MAX]: [float(RAND_MAX)] is not
    below [RAND_MAX], [rndrcp] has a full mantissa, and their product does
    not exceed [8]. *)
Definition rand_max_okb (rand_max : Z) : bool :=
  match Binary32.of_int rand_max, Binary32Noise.rndrcp rand_max with
  | S754_finite false mf ef, S754_finite false mc ec =>
      (Z.pos (digits2_pos mc) =? 24) && (Z.pos mf <=? 2 ^ 24)
      && (-149 <=? ef) && (ef <=? 100)
      && Qle_bool (inject_Z rand_max) (dyadic (Z.pos mf) ef)
      && Qle_bool (dyadic (Z.pos mf) ef * dyadic (Z.pos mc) ec) 8
  | _, _ => false
  end.

(** ** [Signed16ToFloat] as a binary32 number *)

(** The float is neither zero with a sign, nor infinite, nor a NaN. *)
Definition is_plain_float (x : Binary32.float) : bool :=
  match x with
  | S754_zero false | S754_finite _ _ _ => true
  | _ => false
  end.

Definition float_eqb (x y : Binary32.float) : bool :=
  match x, y with
  | S754_zero a, S754_zero b => Bool.eqb a b
  | S754_finite a m e, S754_finite b n f =>
      Bool.eqb a b && Pos.eqb m n && Z.eqb e f
  | S754_infinity a, S754_infinity b => Bool.eqb a b
  | S754_nan, S754_nan => true
  | _, _ => false
  end.

(** The checks of one sample: the next sample converts to a larger float,
    and the negated sample to the negated float. *)
Definition Signed16ToFloat_growsb (s : Z) : bool :=
  SFltb (Signed16ToFloat s) (Signed16ToFloat (s + 1)).

Definition Signed16ToFloat_oddb (s : Z) : bool :=
  float_eqb (Signed16ToFloat (- s)) (SFopp (Signed16ToFloat s)) &&
  is_plain_float (Signed16ToFloat s) && is_plain_float (Signed16ToFloat (- s)).

(** ** [SamplerState] of [VideoBackends/Vulkan/Constants.h] *)

Module Vulkan.

(** [union SamplerState]: all members share the 32 bits of [bits]. *)
Record SamplerState : Type := { bits : Z }.

(** [bool operator==(const SamplerState& rhs) const] and the three other
    comparison operators, each on [bits]. *)
Definition eq (a b : SamplerState) : bool := bits a =? bits b.
Definition ne (a b : SamplerState) : bool := negb (bits a =? bits b).
Definition gt (a b : SamplerState) : bool := bits a >? bits b.
Definition lt (a b : SamplerState) : bool := bits a <? bits b.

End Vulkan.

(** * Properties *)

(** ** Machine integers *)

Lemma u32_range x : 0 <= u32 x < 2 ^ 32.
Proof. unfold u32. apply Z.mod_pos_bound. lia. Qed.


Lemma check_from_spec n : forall lo p,
  check_from n lo p = true ->
  forall x, lo <= x < lo + Z.of_nat n -> p x = true.
Proof.
  induction n as [|n IH]; intros lo p Hc x Hx; [lia|].
  cbn [check_from] in Hc. apply andb_true_iff in Hc as [H0 Hrest].
  destruct (Z.eq_dec x lo) as [->|Hne]; [exact H0|].
  apply (IH (lo + 1) p Hrest). lia.
Qed.

(** ** [Signed16ToFloat] *)

Lemma Signed16ToFloat_all_s16 :
  check_from (Z.to_nat 65536) (-32768) Signed16ToFloat_exactb = true.
Proof. vm_compute. reflexivity. Qed.

Lemma lit_0_000030517578125_value :
  exists c, Binary32.to_Q Binary32.lit_0_000030517578125 = Some c /\
            (c == 30517578125 # 1000000000000000)%Q /\ (c == 1 # 32768)%Q.
Proof. eexists. split; [reflexivity|]. split; reflexivity. Qed.

Lemma Signed16ToFloat_value (s : Z) :
  is_s16 s ->
  exists q : Q,
    Binary32.to_Q (Signed16ToFloat s) = Some q /\
    (q == s16_over_32768 s)%Q /\ (-1 <= q)%Q /\ (q < 1)%Q.
Proof.
  intros Hs.
  assert (Hb : Signed16ToFloat_exactb s = true).
  { apply (check_from_spec _ _ _ Signed16ToFloat_all_s16).
    unfold is_s16 in Hs. lia. }
  unfold Signed16ToFloat_exactb in Hb.
  destruct (Binary32.to_Q (Signed16ToFloat s)) as [q|]; [|discriminate].
  apply andb_true_iff in Hb as [Hb Hlt].
  apply andb_true_iff in Hb as [Heq Hle].
  exists q. split; [reflexivity|].
  apply Qeq_bool_iff in Heq. apply Qle_bool_iff in Hle.
  repeat split; try assumption.
  apply negb_true_iff in Hlt.
  destruct (Qlt_le_dec q 1) as [H|H]; [exact H|].
  apply Qle_bool_iff in H. congruence.
Qed.

(** The number a pushed sample is stored as. *)
Lemma float_value_Signed16ToFloat (s : Z) :
  is_s16 s -> (float_value (Signed16ToFloat s) == s16_over_32768 s)%Q.
Proof.
  intros Hs. destruct (Signed16ToFloat_value s Hs) as (q & Hq & Heq & _).
  unfold float_value. rewrite Hq. exact Heq.
Qed.

(** C6.  For every signed 16-bit sample [s], [Signed16ToFloat s] is a finite
    binary32 number whose value is exactly [s / 32768], which is [s] times
    the factor [0.000030517578125] (the factor being exactly [2^-15], no
    rounding takes place), and that value lies in the half-open interval
    [[-1, 1)]. *)
Theorem Signed16ToFloat_exact (s : Z) :
  is_s16 s ->
  exists q : Q,
    Binary32.to_Q (Signed16ToFloat s) = Some q /\
    (q == s16_over_32768 s)%Q /\
    (q == inject_Z s * (30517578125 # 1000000000000000))%Q /\
    (-1 <= q)%Q /\ (q < 1)%Q.
Proof.
  intros Hs.
  destruct (Signed16ToFloat_value s Hs) as (q & Hq & Heq & Hlo & Hhi).
  exists q. repeat split; try assumption.
  rewrite Heq. unfold s16_over_32768, Qeq. simpl. lia.
Qed.

Lemma Signed16ToFloat_exact_witness :
  exists q : Q,
    Binary32.to_Q (Signed16ToFloat (-32768)) = Some q /\
    (q == s16_over_32768 (-32768))%Q /\
    (q == inject_Z (-32768) * (30517578125 # 1000000000000000))%Q /\
    (-1 <= q)%Q /\ (q < 1)%Q.
Proof. apply (Signed16ToFloat_exact (-32768)). unfold is_s16. lia. Defined.

(** ** Construction *)

(** C9.  The constructor builds exactly three fifos: the DMA fifo with an
    input rate of 32000 Hz and the streaming fifo with 48000 Hz, both with
    the cubic kernel, and the Wiimote speaker fifo with 3000 Hz and the
    linear kernel. *)
Theorem constructor_fifos `{CRand} (BackendSampleRate : Z)
    (i_dma i_streaming i_wiimote : FifoInit) (log : list LogLine) :
  let m := fst (fst (CMixer_new BackendSampleRate i_dma i_streaming i_wiimote log)) in
  fifos m = [m_dma_mixer m; m_streaming_mixer m; m_wiimote_speaker_mixer m] /\
  length (fifos m) = 3%nat /\
  (m_kernel (m_dma_mixer m) = CubicMixerFifo /\
   m_input_sample_rate (m_dma_mixer m) = 32000) /\
  (m_kernel (m_streaming_mixer m) = CubicMixerFifo /\
   m_input_sample_rate (m_streaming_mixer m) = 48000) /\
  (m_kernel (m_wiimote_speaker_mixer m) = LinearMixerFifo /\
   m_input_sample_rate (m_wiimote_speaker_mixer m) = 3000) /\
  m_sample_rate m = BackendSampleRate.
Proof. cbv zeta. repeat split; reflexivity. Qed.

(** ** Logging *)

Lemma StartLogDTKAudio_started filename m log :
  m_log_dtk_audio m = true ->
  StartLogDTKAudio filename m log =
    (m, (WARN_LOG, DSPHLE,
         "DTK Audio logging has already been started"%string) :: log).
Proof. intros Hon. unfold StartLogDTKAudio. now rewrite Hon. Qed.

Lemma StopLogDTKAudio_stopped m log :
  m_log_dtk_audio m = false ->
  StopLogDTKAudio m log =
    (m, (WARN_LOG, DSPHLE,
         "DTK Audio logging has already been stopped"%string) :: log).
Proof. intros Hoff. unfold StopLogDTKAudio. now rewrite Hoff. Qed.

Lemma StartLogDSPAudio_started filename m log :
  m_log_dsp_audio m = true ->
  StartLogDSPAudio filename m log =
    (m, (WARN_LOG, DSPHLE,
         "DSP Audio logging has already been started"%string) :: log).
Proof. intros Hon. unfold StartLogDSPAudio. now rewrite Hon. Qed.

Lemma StopLogDSPAudio_stopped m log :
  m_log_dsp_audio m = false ->
  StopLogDSPAudio m log =
    (m, (WARN_LOG, DSPHLE,
         "DSP Audio logging has already been stopped"%string) :: log).
Proof. intros Hoff. unfold StopLogDSPAudio. now rewrite Hoff. Qed.

Lemma StartLogDTKAudio_on filename m log :
  m_log_dtk_audio (fst (StartLogDTKAudio filename m log)) = true.
Proof.
  unfold StartLogDTKAudio. destruct (m_log_dtk_audio m) eqn:E; simpl; auto.
Qed.

Lemma StopLogDTKAudio_off m log :
  m_log_dtk_audio (fst (StopLogDTKAudio m log)) = false.
Proof.
  unfold StopLogDTKAudio. destruct (m_log_dtk_audio m) eqn:E; simpl; auto.
Qed.

Lemma StartLogDSPAudio_on filename m log :
  m_log_dsp_audio (fst (StartLogDSPAudio filename m log)) = true.
Proof.
  unfold StartLogDSPAudio. destruct (m_log_dsp_audio m) eqn:E; simpl; auto.
Qed.

Lemma StopLogDSPAudio_off m log :
  m_log_dsp_audio (fst (StopLogDSPAudio m log)) = false.
Proof.
  unfold StopLogDSPAudio. destruct (m_log_dsp_audio m) eqn:E; simpl; auto.
Qed.

(** C8.  For both kinds of log, starting a log that is started and stopping
    a log that is stopped leaves the whole engine as it is (the boolean,
    the wave writer and every other member) and logs one warning; so a
    start followed by a second start leaves the engine in the state the
    first start produced, and likewise for two stops. *)
Theorem redundant_log_calls_are_noops (m : CMixer) (log : list LogLine)
    (filename filename' : string) :
  (m_log_dtk_audio m = true ->
   StartLogDTKAudio filename m log =
     (m, (WARN_LOG, DSPHLE,
          "DTK Audio logging has already been started"%string) :: log)) /\
  (m_log_dtk_audio m = false ->
   StopLogDTKAudio m log =
     (m, (WARN_LOG, DSPHLE,
          "DTK Audio logging has already been stopped"%string) :: log)) /\
  (m_log_dsp_audio m = true ->
   StartLogDSPAudio filename m log =
     (m, (WARN_LOG, DSPHLE,
          "DSP Audio logging has already been started"%string) :: log)) /\
  (m_log_dsp_audio m = false ->
   StopLogDSPAudio m log =
     (m, (WARN_LOG, DSPHLE,
          "DSP Audio logging has already been stopped"%string) :: log)) /\
  (let (m1, log1) := StartLogDTKAudio filename m log in
   StartLogDTKAudio filename' m1 log1 =
     (m1, (WARN_LOG, DSPHLE,
           "DTK Audio logging has already been started"%string) :: log1)) /\
  (let (m1, log1) := StopLogDTKAudio m log in
   StopLogDTKAudio m1 log1 =
     (m1, (WARN_LOG, DSPHLE,
           "DTK Audio logging has already been stopped"%string) :: log1)) /\
  (let (m1, log1) := StartLogDSPAudio filename m log in
   StartLogDSPAudio filename' m1 log1 =
     (m1, (WARN_LOG, DSPHLE,
           "DSP Audio logging has already been started"%string) :: log1)) /\
  (let (m1, log1) := StopLogDSPAudio m log in
   StopLogDSPAudio m1 log1 =
     (m1, (WARN_LOG, DSPHLE,
           "DSP Audio logging has already been stopped"%string) :: log1)).
Proof.
  split; [apply StartLogDTKAudio_started|].
  split; [apply StopLogDTKAudio_stopped|].
  split; [apply StartLogDSPAudio_started|].
  split; [apply StopLogDSPAudio_stopped|].
  split; [|split; [|split]].
  - pose proof (StartLogDTKAudio_on filename m log) as Hon.
    destruct (StartLogDTKAudio filename m log) as [m1 log1].
    now apply StartLogDTKAudio_started.
  - pose proof (StopLogDTKAudio_off m log) as Hoff.
    destruct (StopLogDTKAudio m log) as [m1 log1].
    now apply StopLogDTKAudio_stopped.
  - pose proof (StartLogDSPAudio_on filename m log) as Hon.
    destruct (StartLogDSPAudio filename m log) as [m1 log1].
    now apply StartLogDSPAudio_started.
  - pose proof (StopLogDSPAudio_off m log) as Hoff.
    destruct (StopLogDSPAudio m log) as [m1 log1].
    now apply StopLogDSPAudio_stopped.
Qed.

Lemma redundant_log_calls_are_noops_witness :
  (StartLogDTKAudio "again.wav" logging_mixer [] =
     (logging_mixer,
      [(WARN_LOG, DSPHLE,
        "DTK Audio logging has already been started"%string)]) /\
   StartLogDSPAudio "again.wav" logging_mixer [] =
     (logging_mixer,
      [(WARN_LOG, DSPHLE,
        "DSP Audio logging has already been started"%string)])) /\
  (StopLogDTKAudio fresh_mixer [] =
     (fresh_mixer,
      [(WARN_LOG, DSPHLE,
        "DTK Audio logging has already been stopped"%string)]) /\
   StopLogDSPAudio fresh_mixer [] =
     (fresh_mixer,
      [(WARN_LOG, DSPHLE,
        "DSP Audio logging has already been stopped"%string)])).
Proof.
  destruct (redundant_log_calls_are_noops logging_mixer [] "again.wav"
              "again.wav") as (Hdtk_on & _ & Hdsp_on & _).
  destruct (redundant_log_calls_are_noops fresh_mixer [] "again.wav"
              "again.wav") as (_ & Hdtk_off & _ & Hdsp_off & _).
  split; split.
  - apply Hdtk_on. reflexivity.
  - apply Hdsp_on. reflexivity.
  - apply Hdtk_off. reflexivity.
  - apply Hdsp_off. reflexivity.
Defined.

(** ** The storage of a fifo *)

Lemma INDEX_MASK_ones : INDEX_MASK = Z.ones 12.
Proof. reflexivity. Qed.

Lemma masked_index_range (i : Z) : 0 <= Z.land i INDEX_MASK < FLOAT_BUFFER_SIZE.
Proof.
  rewrite INDEX_MASK_ones, Z.land_ones by lia.
  change FLOAT_BUFFER_SIZE with (2 ^ 12). apply Z.mod_pos_bound. lia.
Qed.

Lemma storage_ok_init kernel sample_rate i :
  storage_ok (MixerFifo_init kernel sample_rate i).
Proof.
  unfold storage_ok, MixerFifo_init. cbn [m_float_buffer].
  now rewrite length_map, length_seq.
Qed.

Lemma storage_ok_push fr f : storage_ok f -> storage_ok (push fr f).
Proof.
  unfold storage_ok, push, with_ring. cbn [m_float_buffer].
  now rewrite !length_insert.
Qed.

Lemma storage_ok_push_frames frames : forall f,
  storage_ok f -> storage_ok (push_frames frames f).
Proof.
  unfold push_frames.
  induction frames as [|fr frames IH]; intros f Hf; simpl; [exact Hf|].
  apply IH. now apply storage_ok_push.
Qed.

Lemma pull_frame_buffer `{MixerConstants} ratio f :
  m_float_buffer (snd (pull_frame ratio f)) = m_float_buffer f.
Proof. unfold pull_frame. destruct (0 <? available f); reflexivity. Qed.

Lemma pull_frames_buffer `{MixerConstants} n : forall ratio f,
  m_float_buffer (snd (pull_frames n ratio f)) = m_float_buffer f.
Proof.
  induction n as [|n IH]; intros ratio f; simpl; [reflexivity|].
  pose proof (pull_frame_buffer ratio f) as H1.
  destruct (pull_frame ratio f) as [out f1]. simpl in H1.
  pose proof (IH ratio f1) as H2.
  destruct (pull_frames n ratio f1) as [outs f2]. simpl in *. congruence.
Qed.

Lemma pull_buffer `{MixerConstants} count output_rate honor f :
  m_float_buffer (snd (pull count output_rate honor f)) = m_float_buffer f.
Proof.
  unfold pull.
  assert (Hr : m_float_buffer (snd (pull_ratio output_rate honor f))
               = m_float_buffer f).
  { unfold pull_ratio. destruct honor; [|reflexivity].
    destruct (control_step _ _); reflexivity. }
  destruct (pull_ratio output_rate honor f) as [ratio f1]. simpl in Hr.
  pose proof (pull_frames_buffer (Z.to_nat count) ratio f1) as H2.
  destruct (pull_frames _ ratio f1) as [out f2]. simpl in *. congruence.
Qed.

Lemma reachable_storage_ok f : reachable f -> storage_ok f.
Proof.
  induction 1 as [kernel rate i|samples f _ IH|C count rate honor f _ IH].
  - apply storage_ok_init.
  - now apply storage_ok_push_frames.
  - unfold storage_ok. now rewrite pull_buffer.
Qed.

(** ** The ring buffer *)

(** Goals about indices reduced modulo powers of two. *)
Ltac mod_arith :=
  unfold u32 in *; change (2 ^ 32) with 4294967296 in *;
  Z.div_mod_to_equations; lia.

Lemma left_index_mod (k : Z) : left_index k = (2 * k) mod 4096.
Proof.
  unfold left_index. rewrite INDEX_MASK_ones, Z.land_ones by lia.
  change (2 ^ 12) with 4096. mod_arith.
Qed.

Lemma right_index_mod (k : Z) : right_index k = (2 * k) mod 4096 + 1.
Proof.
  unfold right_index. rewrite INDEX_MASK_ones, Z.land_ones by lia.
  change (2 ^ 12) with 4096. mod_arith.
Qed.




Lemma push_frames_cons fr frames f :
  push_frames (fr :: frames) f = push_frames frames (push fr f).
Proof. reflexivity. Qed.

Lemma push_frames_write_index frames : forall f,
  m_write_index (push_frames frames f) mod 2048
  = (m_write_index f + Z.of_nat (length frames)) mod 2048 /\
  m_write_index (push_frames frames f) mod 4294967296
  = (m_write_index f + Z.of_nat (length frames)) mod 4294967296 /\
  m_read_index (push_frames frames f) = m_read_index f.
Proof.
  induction frames as [|fr frames IH]; intros f.
  - cbn [length push_frames fold_left]. rewrite Z.add_0_r. auto.
  - rewrite push_frames_cons. destruct (IH (push fr f)) as (H1 & H2 & H3).
    rewrite H1, H2, H3. unfold push, with_ring.
    cbn [m_write_index m_read_index length].
    split; [|split]; [mod_arith | mod_arith | reflexivity].
Qed.



(** C7.  The ring buffer holds [N = MAX_SAMPLES = 2048 = 2^11] stereo
    frames in a flat array of exactly [2 * N] floats, [INDEX_MASK] is
    [MAX_SAMPLES * 2 - 1 = 4095], and an index masked with it is a position
    of the array: the array of a fifo has that length when constructed and
    in every state it reaches, so the access finds an element.  The two
    floats of a frame are neighbours, the left one first. *)
Theorem index_mask_valid :
  MAX_SAMPLES = 2048 /\ MAX_SAMPLES = 2 ^ 11 /\
  FLOAT_BUFFER_SIZE = 2 * MAX_SAMPLES /\
  INDEX_MASK = MAX_SAMPLES * 2 - 1 /\ INDEX_MASK = 4095 /\
  (forall i : Z, 0 <= Z.land i INDEX_MASK < FLOAT_BUFFER_SIZE) /\
  (forall k : Z,
     0 <= left_index k /\ right_index k = left_index k + 1 /\
     right_index k < FLOAT_BUFFER_SIZE) /\
  (forall f, reachable f ->
     length (m_float_buffer f) = Z.to_nat (2 * MAX_SAMPLES) /\
     forall i : Z, is_Some (m_float_buffer f !! Z.to_nat (Z.land i INDEX_MASK))).
Proof.
  repeat split; try reflexivity; try apply masked_index_range.
  - now rewrite left_index_mod, right_index_mod.
  - now apply reachable_storage_ok.
  - intros i. apply lookup_lt_is_Some.
    rewrite (reachable_storage_ok f) by assumption.
    pose proof (masked_index_range i). lia.
Qed.

Lemma index_mask_valid_witness :
  reachable (PushSamples [(1, -1)] fresh_dma) /\
  is_Some (m_float_buffer (PushSamples [(1, -1)] fresh_dma)
             !! Z.to_nat (Z.land 123456789 INDEX_MASK)).
Proof.
  assert (Hr : reachable (PushSamples [(1, -1)] fresh_dma)).
  { apply reach_push. apply reach_init. }
  split; [exact Hr|].
  destruct index_mask_valid as (_ & _ & _ & _ & _ & _ & _ & Hall).
  destruct (Hall _ Hr) as [_ Hget]. apply Hget.
Defined.

(** ** Pulling *)

Section PullFacts.
Context `{MixerConstants}.

Lemma available_range f : 0 <= available f <= MAX_SAMPLES.
Proof. unfold available, MAX_SAMPLES. lia. Qed.

Lemma pull_frames_succ (n : nat) ratio f :
  pull_frames (S n) ratio f =
    (fst (pull_frame ratio f)
       :: fst (pull_frames n ratio (snd (pull_frame ratio f))),
     snd (pull_frames n ratio (snd (pull_frame ratio f)))).
Proof.
  cbn [pull_frames]. destruct (pull_frame ratio f) as [out f1].
  cbn [fst snd]. now destruct (pull_frames n ratio f1).
Qed.

Lemma fifo_after_succ (j : nat) ratio f :
  fifo_after (S j) ratio f = fifo_after j ratio (snd (pull_frame ratio f)).
Proof. unfold fifo_after. now rewrite pull_frames_succ. Qed.

Lemma pull_frame_readable ratio f :
  0 < available f ->
  fst (pull_frame ratio f) = Interpolate f (read_cursor f).
Proof.
  intros Hav. unfold pull_frame.
  destruct (0 <? available f) eqn:E; [reflexivity|].
  apply Z.ltb_ge in E. lia.
Qed.

Lemma pull_frame_starved ratio f :
  available f = 0 -> pull_frame ratio f = (silence, f).
Proof. intros Hav. unfold pull_frame. now rewrite Hav. Qed.

Lemma fifo_after_starved (n : nat) ratio f :
  available f = 0 -> fifo_after n ratio f = f.
Proof.
  intros Hav. induction n as [|n IH]; [reflexivity|].
  now rewrite fifo_after_succ, pull_frame_starved.
Qed.

Lemma pull_frames_starved (n : nat) ratio f :
  available f = 0 -> fst (pull_frames n ratio f) = replicate n silence.
Proof.
  intros Hav. induction n as [|n IH]; [reflexivity|].
  rewrite pull_frames_succ, pull_frame_starved by assumption.
  cbn [fst snd replicate]. now rewrite IH.
Qed.

Lemma pull_frames_length (n : nat) : forall ratio f,
  length (fst (pull_frames n ratio f)) = n.
Proof.
  induction n as [|n IH]; intros ratio f; [reflexivity|].
  rewrite pull_frames_succ. cbn [fst length]. now rewrite IH.
Qed.

(** A pull interpolates while frames are readable and is silent from the
    first output frame that finds none. *)
Lemma pull_frames_cases (n : nat) : forall ratio f,
  exists k : nat, (k <= n)%nat /\
    (forall j : nat, (j < k)%nat ->
       0 < available (fifo_after j ratio f) /\
       fst (pull_frames n ratio f) !! j
         = Some (Interpolate (fifo_after j ratio f)
                             (read_cursor (fifo_after j ratio f)))) /\
    (forall j : nat, (k <= j < n)%nat ->
       available (fifo_after j ratio f) = 0 /\
       fst (pull_frames n ratio f) !! j = Some silence).
Proof.
  induction n as [|n IH]; intros ratio f.
  - exists 0%nat. repeat split; intros; lia.
  - destruct (Z.eq_dec (available f) 0) as [Hav|Hav].
    + exists 0%nat. split; [lia|]. split; [intros; lia|].
      intros j Hj. rewrite fifo_after_starved by assumption.
      split; [assumption|].
      rewrite pull_frames_starved by assumption.
      apply lookup_replicate_2. lia.
    + pose proof (available_range f) as Hr.
      destruct (IH ratio (snd (pull_frame ratio f))) as (k & Hk & Hlt & Hge).
      exists (S k). split; [lia|]. split.
      * intros [|j] Hj.
        -- change (fifo_after 0 ratio f) with f.
           split; [lia|].
           rewrite pull_frames_succ, pull_frame_readable by lia.
           reflexivity.
        -- rewrite fifo_after_succ, pull_frames_succ. cbn [fst].
           apply (Hlt j). lia.
      * intros [|j] Hj; [lia|].
        rewrite fifo_after_succ, pull_frames_succ. cbn [fst].
        apply (Hge j). lia.
Qed.
End PullFacts.

(** ** The indices of a fifo *)

Lemma pull_indices `{MixerConstants} count output_rate honor f :
  m_write_index (snd (pull count output_rate honor f)) = m_write_index f /\
  (0 <= m_read_index f < 2 ^ 32 ->
   0 <= m_read_index (snd (pull count output_rate honor f)) < 2 ^ 32).
Proof.
  unfold pull.
  assert (Hr : m_write_index (snd (pull_ratio output_rate honor f))
               = m_write_index f /\
               m_read_index (snd (pull_ratio output_rate honor f))
               = m_read_index f).
  { unfold pull_ratio. destruct honor; [|auto].
    destruct (control_step _ _); auto. }
  destruct (pull_ratio output_rate honor f) as [ratio f1].
  cbn [snd] in Hr. destruct Hr as [<- <-].
  assert (Hn : forall n g,
             m_write_index (snd (pull_frames n ratio g)) = m_write_index g /\
             (0 <= m_read_index g < 2 ^ 32 ->
              0 <= m_read_index (snd (pull_frames n ratio g)) < 2 ^ 32)).
  { induction n as [|n IH]; intros g; [auto|].
    rewrite pull_frames_succ. cbn [snd].
    destruct (IH (snd (pull_frame ratio g))) as [Hw Hrd]. rewrite Hw.
    unfold pull_frame in *. destruct (0 <? available g); cbn [snd] in *.
    - split; [reflexivity|]. intros _. apply Hrd.
      unfold advance_read, with_ring. cbn [m_read_index]. apply u32_range.
    - auto. }
  specialize (Hn (Z.to_nat count) f1).
  destruct (pull_frames (Z.to_nat count) ratio f1) as [out f2].
  exact Hn.
Qed.

Lemma push_frames_write_range frames : forall f,
  0 <= m_write_index f < 2 ^ 32 ->
  0 <= m_write_index (push_frames frames f) < 2 ^ 32.
Proof.
  induction frames as [|fr frames IH]; intros f Hf; [exact Hf|].
  rewrite push_frames_cons. apply IH.
  unfold push, with_ring. cbn [m_write_index]. apply u32_range.
Qed.

Lemma reachable_indices f :
  reachable f ->
  0 <= m_write_index f < 2 ^ 32 /\ 0 <= m_read_index f < 2 ^ 32.
Proof.
  induction 1 as [kernel rate i|samples f _ IH|C count rate honor f _ IH].
  - cbn. lia.
  - unfold PushSamples.
    destruct (push_frames_write_index (map to_frame samples) f)
      as (_ & _ & Hr).
    rewrite Hr. split; [|tauto]. now apply push_frames_write_range.
  - destruct (pull_indices count rate honor f) as [Hw Hr].
    rewrite Hw. tauto.
Qed.

(** ** A lookup in a mapped list *)



(** ** A pull fills the request *)

Lemma pull_count `{MixerConstants} count output_rate honor f :
  0 <= count ->
  fst (fst (pull count output_rate honor f)) = count /\
  length (snd (fst (pull count output_rate honor f))) = Z.to_nat count.
Proof.
  intros Hc. unfold pull.
  destruct (pull_ratio output_rate honor f) as [ratio f1].
  pose proof (pull_frames_length (Z.to_nat count) ratio f1) as Hlen.
  destruct (pull_frames (Z.to_nat count) ratio f1) as [out f2].
  cbn [fst snd] in *. rewrite Hlen. split; [lia|reflexivity].
Qed.

Lemma accumulate_length f acc pulled :
  length pulled = length acc -> length (accumulate f acc pulled) = length acc.
Proof.
  intros Hlen. unfold accumulate. now apply length_zip_with_l_eq.
Qed.

Lemma CMixer_Mix_count `{MixerConstants} numSamples consider_framelimit m :
  0 <= numSamples ->
  fst (fst (CMixer_Mix numSamples consider_framelimit m)) = numSamples /\
  length (snd (fst (CMixer_Mix numSamples consider_framelimit m)))
  = Z.to_nat numSamples.
Proof.
  intros Hn. unfold CMixer_Mix.
  pose proof (pull_count numSamples (m_sample_rate m) consider_framelimit
                (m_dma_mixer m) Hn) as [_ H1].
  pose proof (pull_count numSamples (m_sample_rate m) consider_framelimit
                (m_streaming_mixer m) Hn) as [_ H2].
  pose proof (pull_count numSamples (m_sample_rate m) consider_framelimit
                (m_wiimote_speaker_mixer m) Hn) as [_ H3].
  destruct (pull numSamples _ _ (m_dma_mixer m)) as [[n1 out1] dma].
  destruct (pull numSamples _ _ (m_streaming_mixer m)) as [[n2 out2] str].
  destruct (pull numSamples _ _ (m_wiimote_speaker_mixer m)) as [[n3 out3] wii].
  cbn [fst snd] in *.
  set (acc0 := replicate (Z.to_nat numSamples) silence).
  assert (L0 : length acc0 = Z.to_nat numSamples)
    by (subst acc0; apply length_replicate).
  set (acc1 := accumulate dma acc0 out1).
  assert (L1 : length acc1 = Z.to_nat numSamples)
    by (subst acc1; rewrite accumulate_length; congruence).
  set (acc2 := accumulate str acc1 out2).
  assert (L2 : length acc2 = Z.to_nat numSamples)
    by (subst acc2; rewrite accumulate_length; congruence).
  set (acc3 := accumulate wii acc2 out3).
  assert (L3 : length acc3 = Z.to_nat numSamples)
    by (subst acc3; rewrite accumulate_length; congruence).
  rewrite length_map, L3. split; [lia|reflexivity].
Qed.

(** C1.  A pull of [count] frames returns [count] and delivers [count]
    frames: up to some frame [k] each one finds a readable frame and is the
    kernel's value at the read cursor; from [k] on the ring buffer has no
    readable frame and every frame delivered is silence.  The engine's
    [Mix] likewise returns [numSamples] and delivers [numSamples] frames. *)
Theorem pull_fills_request `{MixerConstants} (count output_rate : Z)
    (honor_rate_limit : bool) (f : MixerFifo) :
  0 <= count ->
  (let '(n, out, _) := pull count output_rate honor_rate_limit f in
   let (ratio, f1) := pull_ratio output_rate honor_rate_limit f in
   n = count /\ length out = Z.to_nat count /\
   exists k : nat, (k <= Z.to_nat count)%nat /\
     (forall j : nat, (j < k)%nat ->
        0 < available (fifo_after j ratio f1) /\
        out !! j = Some (Interpolate (fifo_after j ratio f1)
                           (read_cursor (fifo_after j ratio f1)))) /\
     (forall j : nat, (k <= j < Z.to_nat count)%nat ->
        available (fifo_after j ratio f1) = 0 /\
        out !! j = Some silence)) /\
  (forall (m : CMixer) (consider_framelimit : bool),
     let '(n, out, _) := CMixer_Mix count consider_framelimit m in
     n = count /\ length out = Z.to_nat count).
Proof.
  intros Hc. split.
  - pose proof (pull_count count output_rate honor_rate_limit f Hc) as [Hn Hl].
    unfold pull in *.
    destruct (pull_ratio output_rate honor_rate_limit f) as [ratio f1].
    pose proof (pull_frames_cases (Z.to_nat count) ratio f1) as Hcases.
    destruct (pull_frames (Z.to_nat count) ratio f1) as [out f2].
    cbn [fst snd] in *. auto.
  - intros m consider.
    pose proof (CMixer_Mix_count count consider m Hc) as [Hn Hl].
    destruct (CMixer_Mix count consider m) as [[n out] m']. auto.
Qed.

Lemma pull_fills_request_witness :
  let '(n, out, _) :=
    pull (H := sample_constants) 6 48000 true
      (PushSamples [(16384, 16384); (0, -1); (5, 5); (-32768, 32767)]
         fresh_streaming) in
  n = 6 /\ length out = 6%nat.
Proof.
  pose proof (pull_fills_request (H := sample_constants) 6 48000 true
    (PushSamples [(16384, 16384); (0, -1); (5, 5); (-32768, 32767)]
       fresh_streaming) ltac:(lia)) as [Hpull _].
  destruct (pull 6 48000 true _) as [[n out] f'].
  destruct (pull_ratio 48000 true _) as [ratio f1].
  destruct Hpull as (Hn & Hl & _).
  split; [exact Hn|exact Hl].
Defined.

(** ** Rate control *)

Lemma Clamp_range (x lo hi : Q) : (lo <= hi)%Q -> (lo <= Clamp x lo hi <= hi)%Q.
Proof.
  intros Hle. unfold Clamp.
  destruct (Qlt_le_dec x lo) as [Hlo|Hlo]; [lra|].
  destruct (Qlt_le_dec hi x) as [Hhi|Hhi]; lra.
Qed.

Lemma frequency_shift_range `{MixerConstants} (avg : Q) :
  (0 <= MAX_FREQ_SHIFT)%Q ->
  (1 - MAX_FREQ_SHIFT <= frequency_shift avg <= 1 + MAX_FREQ_SHIFT)%Q.
Proof. intros Hpos. unfold frequency_shift. apply Clamp_range. lra. Qed.

(** C3.  Whatever fill fractions the controller is fed, from whatever
    average it starts, every frequency shift it computes (the averaged
    error times [CONTROL_FACTOR], clamped) lies in
    [[1 - MAX_FREQ_SHIFT, 1 + MAX_FREQ_SHIFT]], [MAX_FREQ_SHIFT] being a
    magnitude, that is, not negative; the ratio of a rate-limited pull is
    the nominal ratio times such a shift. *)
Theorem frequency_shift_clamped `{MixerConstants} (fills : list Q) :
  (0 <= MAX_FREQ_SHIFT)%Q ->
  (forall avg : Q,
     length (control_run avg fills) = length fills /\
     Forall (fun shift =>
               (1 - MAX_FREQ_SHIFT <= shift <= 1 + MAX_FREQ_SHIFT)%Q)
            (control_run avg fills)) /\
  (forall (output_rate : Z) (f : MixerFifo),
     exists shift : Q,
       (1 - MAX_FREQ_SHIFT <= shift <= 1 + MAX_FREQ_SHIFT)%Q /\
       fst (pull_ratio output_rate true f)
       = (inject_Z (m_input_sample_rate f) / inject_Z output_rate * shift)%Q).
Proof.
  intros Hpos. split.
  - induction fills as [|x rest IH]; intros avg; cbn [control_run].
    + split; [reflexivity|constructor].
    + unfold control_step.
      destruct (IH (control_average avg (control_error x))) as [Hlen Hall].
      split; [cbn [length]; now rewrite Hlen|].
      constructor; [now apply frequency_shift_range|exact Hall].
  - intros output_rate f. unfold pull_ratio, control_step.
    eexists. split; [now apply frequency_shift_range|reflexivity].
Qed.

Lemma frequency_shift_clamped_witness :
  Forall (fun shift => ((1 - (1 # 200) <= shift)%Q /\ (shift <= 1 + (1 # 200))%Q))
         (control_run (H := sample_constants) 0%Q
            [1; 0; 100; -5; 1 # 2]%Q).
Proof.
  apply (proj1 (frequency_shift_clamped (H := sample_constants)
                  [1; 0; 100; -5; 1 # 2]%Q ltac:(discriminate)) 0%Q).
Defined.

(** ** Rounding in binary32 *)

Lemma digits2_pos_size (p : positive) : digits2_pos p = Pos.size p.
Proof. induction p as [p IH|p IH|]; simpl; congruence. Qed.

Lemma digits2_pos_bounds (p : positive) :
  2 ^ (Z.pos (digits2_pos p) - 1) <= Z.pos p < 2 ^ Z.pos (digits2_pos p).
Proof.
  rewrite digits2_pos_size.
  pose proof (Pos.size_gt p) as Hgt. pose proof (Pos.size_le p) as Hle.
  apply Pos2Z.pos_lt_pos in Hgt. apply Pos2Z.pos_le_pos in Hle.
  rewrite Pos2Z.inj_pow in Hgt, Hle.
  change (Z.pos 2) with 2 in *.
  replace (2 ^ Z.pos (Pos.size p)) with (2 * 2 ^ (Z.pos (Pos.size p) - 1)) in Hle.
  - lia.
  - rewrite <- Z.pow_succ_r by lia. f_equal. lia.
Qed.

Lemma iter_pos_counts {A : Type} (f : A -> A) (Inv : Z -> A -> Prop) :
  (forall k x, 0 <= k -> Inv k x -> Inv (k + 1) (f x)) ->
  forall (n : positive) (k : Z) (x : A),
    0 <= k -> Inv k x -> Inv (k + Z.pos n) (SpecFloat.iter_pos f n x).
Proof.
  intros Hstep. induction n as [n IH|n IH|]; intros k x Hk Hx; cbn [SpecFloat.iter_pos].
  - replace (k + Z.pos n~1) with (k + 1 + Z.pos n + Z.pos n) by lia.
    apply IH; [lia|]. apply IH; [lia|]. now apply Hstep.
  - replace (k + Z.pos n~0) with (k + Z.pos n + Z.pos n) by lia.
    apply IH; [lia|]. now apply IH.
  - now apply Hstep.
Qed.

Lemma shr_1_spec (mrs : shr_record) :
  0 <= shr_m mrs ->
  shr_m (shr_1 mrs) = shr_m mrs / 2 /\
  shr_r (shr_1 mrs) = Z.odd (shr_m mrs) /\
  shr_s (shr_1 mrs) = shr_r mrs || shr_s mrs.
Proof.
  destruct mrs as [m r s]. cbn [shr_m shr_r shr_s]. intros Hm.
  rewrite <- Z.div2_div.
  destruct m as [|[p|p|]|p]; try lia; cbn; auto.
Qed.

Lemma shifted_step (m0 : Z) (k : Z) (mrs : shr_record) :
  0 <= m0 -> 0 <= k -> shifted m0 k mrs -> shifted m0 (k + 1) (shr_1 mrs).
Proof.
  intros Hm0 Hk [Hm Hrs].
  assert (Hpow : 0 < 2 ^ k) by (apply Z.pow_pos_nonneg; lia).
  assert (Hnn : 0 <= shr_m mrs).
  { rewrite Hm. apply Z.div_pos; lia. }
  destruct (shr_1_spec mrs Hnn) as (H1 & H2 & H3).
  unfold shifted. rewrite H1, H2, H3, Hm.
  rewrite Z.pow_add_r, Z.pow_1_r by lia.
  split.
  - rewrite Z.div_div by lia. reflexivity.
  - rewrite Z.rem_mul_r by lia.
    pose proof (Z.mod_pos_bound m0 (2 ^ k) Hpow) as Hb1.
    pose proof (Z.mod_pos_bound (m0 / 2 ^ k) 2 ltac:(lia)) as Hb2.
    rewrite orb_false_iff, Hrs.
    rewrite <- Z.negb_even, negb_false_iff, Z.even_spec.
    split.
    + intros [[x Hx] H0]. rewrite H0, Hx.
      replace (2 * x) with (x * 2) by lia. rewrite Z.mod_mul by lia. lia.
    + intros Hsum. split; [|nia].
      exists (m0 / 2 ^ k / 2).
      pose proof (Z.div_mod (m0 / 2 ^ k) 2 ltac:(lia)). nia.
Qed.

Lemma shr_shifted (m0 : Z) (n : positive) :
  0 <= m0 ->
  shifted m0 (Z.pos n) (SpecFloat.iter_pos shr_1 n (Build_shr_record m0 false false)).
Proof.
  intros Hm0.
  change (Z.pos n) with (0 + Z.pos n).
  apply (iter_pos_counts shr_1 (shifted m0)).
  - intros k x Hk. now apply shifted_step.
  - lia.
  - unfold shifted. cbn. rewrite Z.div_1_r, Z.mod_1_r. tauto.
Qed.

Lemma fexp32 (x : Z) : fexp 24 128 x = Z.max (x - 24) (-149).
Proof. reflexivity. Qed.

Lemma pow2_pos (k : Z) : 0 <= k -> 0 < 2 ^ k.
Proof. intros Hk. apply Z.pow_pos_nonneg; lia. Qed.

Lemma pow2_split (a b : Z) : 0 <= a -> 0 <= b -> 2 ^ (a + b) = 2 ^ a * 2 ^ b.
Proof. intros Ha Hb. now apply Z.pow_add_r. Qed.

Lemma pow2_le (a b : Z) : 0 <= a <= b -> 2 ^ a <= 2 ^ b.
Proof. intros H. apply Z.pow_le_mono_r; lia. Qed.

(** The first shift of [binary_round_aux]: the mantissa is cut down to the
    exponent [fexp] asks for. *)
Lemma shr_fexp_first (p : positive) (e : Z) :
  let E := fexp 24 128 (Z.pos (digits2_pos p) + e) in
  e <= E ->
  exists mrs, shr_fexp 24 128 (Z.pos p) e loc_Exact = (mrs, E) /\
              shifted (Z.pos p) (E - e) mrs.
Proof.
  intros E He. unfold shr_fexp. cbn [Zdigits2 shr_record_of_loc].
  fold E. unfold shr.
  destruct (E - e) as [|n|n] eqn:Hn; try lia.
  - exists (Build_shr_record (Z.pos p) false false).
    split; [f_equal; lia|].
    unfold shifted. cbn. rewrite Z.div_1_r, Z.mod_1_r. tauto.
  - exists (SpecFloat.iter_pos shr_1 n (Build_shr_record (Z.pos p) false false)).
    split; [f_equal; lia|]. apply shr_shifted. lia.
Qed.

(** The second shift: it only acts when rounding has carried into a 25th
    bit. *)
Lemma shr_fexp_second (q E : Z) :
  -149 <= E -> 0 < q <= 2 ^ 24 ->
  exists (m : positive) (e2 : Z),
    shr_m (fst (shr_fexp 24 128 q E loc_Exact)) = Z.pos m /\
    snd (shr_fexp 24 128 q E loc_Exact) = e2 /\
    E <= e2 <= E + 1 /\ Z.pos m * 2 ^ (e2 - E) = q.
Proof.
  intros HE Hq. destruct q as [|w|w]; try lia.
  pose proof (digits2_pos_bounds w) as Hd.
  unfold shr_fexp. cbn [Zdigits2 shr_record_of_loc]. rewrite fexp32.
  destruct (Z.eq_dec (Z.pos w) (2 ^ 24)) as [Hcarry|Hsmall].
  - assert (Hw : w = 16777216%positive) by lia. subst w. clear Hd Hcarry Hq.
    change (Z.pos (digits2_pos 16777216)) with 25.
    replace (Z.max (25 + E - 24) (-149) - E) with 1 by lia.
    cbn. exists 8388608%positive, (E + 1). repeat split; try lia.
    replace (E + 1 - E) with 1 by lia. reflexivity.
  - assert (Hdig : Z.pos (digits2_pos w) <= 24).
    { destruct (Z_le_gt_dec (Z.pos (digits2_pos w)) 24) as [H|H]; [exact H|].
      assert (2 ^ 24 <= 2 ^ (Z.pos (digits2_pos w) - 1)) by (apply pow2_le; lia).
      lia. }
    unfold shr.
    destruct (Z.max (Z.pos (digits2_pos w) + E - 24) (-149) - E) as [|n|n] eqn:Hn;
      try lia.
    + exists w, E. cbn. rewrite Z.sub_diag. repeat split; lia.
    + exists w, E. cbn. rewrite Z.sub_diag. repeat split; lia.
Qed.

Lemma round_nearest_even_near (q : Z) (mrs : shr_record) :
  q <= round_nearest_even q (loc_of_shr_record mrs) <= q + 1 /\
  (shr_r mrs || shr_s mrs = false ->
   round_nearest_even q (loc_of_shr_record mrs) = q).
Proof.
  destruct mrs as [m [|] [|]]; cbn; try destruct (Z.even q); split; try lia;
    try discriminate.
Qed.

Lemma binary_round_aux_spec (s : bool) (p : positive) (e : Z) :
  let E := fexp 24 128 (Z.pos (digits2_pos p) + e) in
  e <= E -> Z.pos (digits2_pos p) + e <= 127 ->
  exists W : Z,
    Z.pos p / 2 ^ (E - e) <= W <= Z.pos p / 2 ^ (E - e) + 1 /\
    (Z.pos p mod 2 ^ (E - e) = 0 -> W = Z.pos p / 2 ^ (E - e)) /\
    encodes s W E (binary_round_aux 24 128 s (Z.pos p) e loc_Exact).
Proof.
  intros E He Hmax.
  destruct (shr_fexp_first p e He) as (mrs & Hshr & Hm & Hrs).
  fold E in Hshr, Hm, Hrs.
  pose proof (digits2_pos_bounds p) as Hd.
  assert (HE : -149 <= E <= 103) by (unfold E; rewrite fexp32; lia).
  set (q := Z.pos p / 2 ^ (E - e)) in *.
  assert (Hpow : 0 < 2 ^ (E - e)) by (apply pow2_pos; lia).
  assert (Hq0 : 0 <= q) by (apply Z.div_pos; lia).
  assert (Hq : q < 2 ^ 24).
  { apply Z.div_lt_upper_bound; [lia|].
    destruct (Z_le_gt_dec (Z.pos (digits2_pos p)) 24) as [Hs|Hl].
    - assert (2 ^ Z.pos (digits2_pos p) <= 2 ^ 24) by (apply pow2_le; lia).
      nia.
    - assert (Hsplit : 2 ^ Z.pos (digits2_pos p)
                       = 2 ^ (Z.pos (digits2_pos p) - 24) * 2 ^ 24).
      { rewrite <- pow2_split by lia. f_equal. lia. }
      assert (2 ^ (Z.pos (digits2_pos p) - 24) <= 2 ^ (E - e)).
      { apply pow2_le. unfold E. rewrite fexp32. lia. }
      nia. }
  destruct (round_nearest_even_near q mrs) as [Hnear Hexact].
  set (q' := round_nearest_even q (loc_of_shr_record mrs)) in *.
  exists q'. split; [exact Hnear|]. split.
  { intros Hmod. apply Hexact. now apply Hrs. }
  unfold binary_round_aux. rewrite Hshr. rewrite Hm. fold q. fold q'.
  destruct (Z.eq_dec q' 0) as [Hz|Hnz].
  - left. split; [exact Hz|]. rewrite Hz.
    unfold shr_fexp. cbn [Zdigits2 shr_record_of_loc]. rewrite fexp32.
    unfold shr.
    destruct (Z.max (0 + E - 24) (-149) - E) as [|n|n] eqn:Hn; try lia;
      reflexivity.
  - right.
    destruct (shr_fexp_second q' E ltac:(lia) ltac:(lia))
      as (m & e2 & Hm2 & He2 & Hrange & Hval).
    destruct (shr_fexp 24 128 q' E loc_Exact) as [mrs2 e2'].
    cbn [fst snd] in Hm2, He2. subst e2'. rewrite Hm2.
    exists m, e2.
    replace (e2 <=? 128 - 24) with true by (symmetry; apply Z.leb_le; lia).
    repeat split; try lia.
Qed.

Lemma iter_xO_value (p d : positive) :
  Z.pos (Pos.iter xO p d) = Z.pos p * 2 ^ Z.pos d.
Proof.
  induction d as [|d IH] using Pos.peano_ind.
  - cbn. lia.
  - rewrite Pos.iter_succ, Pos2Z.inj_xO, IH, Pos2Z.inj_succ.
    rewrite Z.pow_succ_r by lia. lia.
Qed.

Lemma iter_xO_digits (p d : positive) :
  Z.pos (digits2_pos (Pos.iter xO p d)) = Z.pos (digits2_pos p) + Z.pos d.
Proof.
  induction d as [|d IH] using Pos.peano_ind.
  - cbn [Pos.iter digits2_pos]. lia.
  - rewrite Pos.iter_succ. cbn [digits2_pos]. lia.
Qed.

(** [binary_round] on the mantissa [p] and the exponent [e]: the result is
    a multiple [W] of [2^E], [E] being the exponent [fexp] asks for, and is
    less than [2^E] away from [p * 2^e].  Both are counted in units of
    [2^c], [c] the smaller of [e] and [E]. *)
Lemma binary_round_spec (s : bool) (p : positive) (e : Z) :
  let E := fexp 24 128 (Z.pos (digits2_pos p) + e) in
  let c := Z.min e E in
  Z.pos (digits2_pos p) + e <= 127 ->
  exists W : Z,
    0 <= W /\
    encodes s W E (binary_round 24 128 s p e) /\
    Z.abs (W * 2 ^ (E - c) - Z.pos p * 2 ^ (e - c)) < 2 ^ (E - c).
Proof.
  intros E c Hmax. unfold binary_round. fold E. unfold shl_align.
  destruct (E - e) as [|n|n] eqn:Hn.
  - destruct (binary_round_aux_spec s p e ltac:(fold E; lia) Hmax)
      as (W & Hnear & Hexact & Henc). fold E in Hnear, Hexact, Henc.
    rewrite Hn, Z.pow_0_r in Hnear, Hexact. rewrite Z.div_1_r in *.
    rewrite Z.mod_1_r in Hexact. specialize (Hexact eq_refl). subst W.
    exists (Z.pos p). split; [lia|]. split; [exact Henc|].
    replace (E - c) with 0 by lia. replace (e - c) with 0 by lia.
    cbn. lia.
  - destruct (binary_round_aux_spec s p e ltac:(fold E; lia) Hmax)
      as (W & Hnear & Hexact & Henc). fold E in Hnear, Hexact, Henc.
    assert (Hpow : 0 < 2 ^ (E - e)) by (apply pow2_pos; lia).
    assert (0 <= Z.pos p / 2 ^ (E - e)) by (apply Z.div_pos; lia).
    exists W. split; [lia|]. split; [exact Henc|].
    replace (E - c) with (E - e) by lia. replace (e - c) with 0 by lia.
    rewrite Z.pow_0_r, Z.mul_1_r.
    pose proof (Z.div_mod (Z.pos p) (2 ^ (E - e)) ltac:(lia)) as Hdm.
    pose proof (Z.mod_pos_bound (Z.pos p) (2 ^ (E - e)) Hpow) as Hb.
    destruct (Z.eq_dec (Z.pos p mod 2 ^ (E - e)) 0) as [H0|H0].
    + rewrite (Hexact H0). nia.
    + nia.
  - pose proof (iter_xO_value p n) as Hv. pose proof (iter_xO_digits p n) as Hdg.
    set (mz := Pos.iter xO p n) in *.
    assert (HE : fexp 24 128 (Z.pos (digits2_pos mz) + E) = E).
    { rewrite Hdg. unfold E at 2. f_equal. lia. }
    destruct (binary_round_aux_spec s mz E ltac:(rewrite HE; lia)
                ltac:(rewrite Hdg; lia))
      as (W & Hnear & Hexact & Henc).
    rewrite HE in Hnear, Hexact, Henc.
    rewrite Z.sub_diag, Z.pow_0_r in Hnear, Hexact. rewrite Z.div_1_r in *.
    rewrite Z.mod_1_r in Hexact. specialize (Hexact eq_refl). subst W.
    exists (Z.pos mz). split; [lia|]. split; [exact Henc|].
    replace (E - c) with 0 by lia. replace (e - c) with (Z.pos n) by lia.
    rewrite Hv. cbn [Z.pow]. rewrite Z.pow_0_r. 
    replace (Z.pos p * 2 ^ Z.pos n * 1 - Z.pos p * 2 ^ Z.pos n) with 0 by lia.
    cbn. lia.
Qed.

Lemma Qpow2_pos (e : Z) : (0 < 2 ^ e)%Q.
Proof. apply Qpower_0_lt. reflexivity. Qed.

Lemma Qpow2_add (a b : Z) : (2 ^ (a + b) == 2 ^ a * 2 ^ b)%Q.
Proof. apply Qpower_plus. discriminate. Qed.

Lemma Qpow2_inject (k : Z) : 0 <= k -> (inject_Z (2 ^ k) == 2 ^ k)%Q.
Proof. intros Hk. now rewrite Zpower_Qpower. Qed.

Lemma dyadic_value (n e : Z) : (dyadic n e == inject_Z n * 2 ^ e)%Q.
Proof.
  destruct e as [|p|p]; unfold dyadic.
  - change (2 ^ 0)%Q with 1%Q. ring.
  - rewrite inject_Z_mult, Qpow2_inject by lia. reflexivity.
  - change (Z.neg p) with (- Z.pos p). rewrite Qpower_opp.
    rewrite <- Qpow2_inject by lia. rewrite <- Pos2Z.inj_pow.
    rewrite Qmake_Qdiv. reflexivity.
Qed.

Lemma dyadic_shift (n e c : Z) :
  c <= e -> (dyadic n e == dyadic (n * 2 ^ (e - c)) c)%Q.
Proof.
  intros Hc. rewrite !dyadic_value, inject_Z_mult, Qpow2_inject by lia.
  replace e with ((e - c) + c) at 1 by lia. rewrite Qpow2_add. ring.
Qed.

Lemma dyadic_le_same (a b c : Z) : (dyadic a c <= dyadic b c)%Q <-> a <= b.
Proof.
  rewrite !dyadic_value. pose proof (Qpow2_pos c) as Hp. split.
  - intros H. apply Qmult_le_r in H; [|exact Hp]. now rewrite Zle_Qle.
  - intros H. apply Qmult_le_r; [exact Hp|]. now rewrite <- Zle_Qle.
Qed.

Lemma dyadic_le_iff (a k b j c : Z) :
  c <= k -> c <= j ->
  (dyadic a k <= dyadic b j)%Q <-> a * 2 ^ (k - c) <= b * 2 ^ (j - c).
Proof.
  intros Hk Hj.
  rewrite (dyadic_shift a k c Hk), (dyadic_shift b j c Hj).
  apply dyadic_le_same.
Qed.

Lemma dyadic_opp (n e : Z) : (dyadic (- n) e == - dyadic n e)%Q.
Proof. rewrite !dyadic_value, inject_Z_opp. ring. Qed.

Lemma dyadic_0 (e : Z) : (dyadic 0 e == 0)%Q.
Proof. rewrite dyadic_value. change (inject_Z 0) with 0%Q. ring. Qed.

Lemma dyadic_plus (a b e : Z) : (dyadic (a + b) e == dyadic a e + dyadic b e)%Q.
Proof. rewrite !dyadic_value, inject_Z_plus. ring. Qed.

Lemma multiple_below (W X T l : Z) :
  0 < T -> Z.abs (W * T - X) < T -> l * T <= X -> l * T <= W * T.
Proof. intros HT Hn Hl. assert (l < W + 1) by nia. nia. Qed.

Lemma multiple_above (W X T l : Z) :
  0 < T -> Z.abs (W * T - X) < T -> X <= l * T -> W * T <= l * T.
Proof. intros HT Hn Hl. assert (W - 1 < l) by nia. nia. Qed.

Lemma binade_below (W X T L M : Z) :
  0 < T -> Z.abs (W * T - X) < T -> M * T <= X -> L <= M * T -> L <= W * T.
Proof. intros HT Hn HX HL. assert (M - 1 < W) by nia. nia. Qed.

Lemma binade_above (W X T L M : Z) :
  0 < T -> Z.abs (W * T - X) < T -> M * T <= X -> X <= L -> L <= M * T ->
  W * T <= L.
Proof. intros HT Hn HX HXL HL. assert (W < M + 1) by nia. nia. Qed.

(** No number with a 24-bit mantissa lies strictly between [p * 2^e] and
    the multiple [W] of [2^E] it was rounded to.  All numbers are counted
    in units of [2^c']. *)
Lemma round_between (p : positive) (W e a k c' : Z) :
  let E := fexp 24 128 (Z.pos (digits2_pos p) + e) in
  let c := Z.min e E in
  0 <= W ->
  Z.abs (W * 2 ^ (E - c) - Z.pos p * 2 ^ (e - c)) < 2 ^ (E - c) ->
  Z.abs a <= 2 ^ 24 -> -149 <= k -> c' <= c -> c' <= k ->
  (a * 2 ^ (k - c') <= Z.pos p * 2 ^ (e - c') ->
   a * 2 ^ (k - c') <= W * 2 ^ (E - c')) /\
  (Z.pos p * 2 ^ (e - c') <= a * 2 ^ (k - c') ->
   W * 2 ^ (E - c') <= a * 2 ^ (k - c')).
Proof.
  intros E c HW Hnear Ha Hk Hc' Hck.
  pose proof (digits2_pos_bounds p) as Hd.
  set (d := Z.pos (digits2_pos p)) in *.
  assert (Hd1 : 1 <= d) by (unfold d; lia).
  assert (HE : E = Z.max (d + e - 24) (-149)) by (unfold E; now rewrite fexp32).
  set (S := 2 ^ (c - c')).
  assert (HS : 0 < S) by (apply pow2_pos; lia).
  set (T := 2 ^ (E - c')).
  assert (HT : 0 < T) by (apply pow2_pos; lia).
  assert (HTS : T = 2 ^ (E - c) * S).
  { unfold T, S. rewrite <- pow2_split by lia. f_equal. lia. }
  set (B := 2 ^ (e - c')).
  assert (HBS : B = 2 ^ (e - c) * S).
  { unfold B, S. rewrite <- pow2_split by lia. f_equal. lia. }
  assert (Hnear' : Z.abs (W * T - Z.pos p * B) < T).
  { rewrite HTS, HBS.
    replace (W * (2 ^ (E - c) * S) - Z.pos p * (2 ^ (e - c) * S))
      with ((W * 2 ^ (E - c) - Z.pos p * 2 ^ (e - c)) * S) by ring.
    rewrite Z.abs_mul, (Z.abs_eq S) by lia.
    apply Z.mul_lt_mono_pos_r; assumption. }
  clear Hnear HTS HBS.
  set (K := 2 ^ (k - c')).
  assert (HK : 0 < K) by (apply pow2_pos; lia).
  destruct (Z_le_gt_dec E k) as [HkE|HkE].
  - assert (HKT : K = 2 ^ (k - E) * T).
    { unfold K, T. rewrite <- pow2_split by lia. f_equal. lia. }
    rewrite HKT. set (l := a * 2 ^ (k - E)).
    replace (a * (2 ^ (k - E) * T)) with (l * T) by (unfold l; ring).
    split; intros H.
    + exact (multiple_below W _ T l HT Hnear' H).
    + exact (multiple_above W _ T l HT Hnear' H).
  - assert (HX : 2 ^ 23 * T <= Z.pos p * B).
    { assert (H23 : 2 ^ 23 * T = 2 ^ (d - 1) * B).
      { unfold T, B. rewrite <- !pow2_split by lia. f_equal. lia. }
      rewrite H23. apply Z.mul_le_mono_nonneg_r; [unfold B|]; lia. }
    assert (HL : a * K <= 2 ^ 23 * T).
    { assert (HTK : T = 2 ^ (E - k) * K).
      { unfold K, T. rewrite <- pow2_split by lia. f_equal. lia. }
      assert (H2 : 2 ^ 1 <= 2 ^ (E - k)) by (apply pow2_le; lia).
      rewrite HTK. clear - Ha HK H2.
      change (2 ^ 1) with 2 in *. change (2 ^ 24) with (2 * 2 ^ 23) in Ha.
      set (G := 2 ^ (E - k)) in *. nia. }
    split; intros H.
    + exact (binade_below W _ T _ (2 ^ 23) HT Hnear' HX HL).
    + exact (binade_above W _ T _ (2 ^ 23) HT Hnear' HX H HL).
Qed.

Lemma to_Q_finite (s : bool) (m : positive) (e : Z) :
  Binary32.to_Q (S754_finite s m e) = Some (dyadic (if s then Z.neg m else Z.pos m) e).
Proof. reflexivity. Qed.

Lemma representable_opp (q : Q) : representable q -> representable (- q).
Proof.
  intros (a & k & Ha & Hk & Hq). exists (- a), k.
  split; [now rewrite Z.abs_opp|]. split; [exact Hk|].
  now rewrite dyadic_opp, Hq.
Qed.

Lemma encodes_value (s : bool) (W E : Z) (r : spec_float) :
  encodes s W E r ->
  exists v, Binary32.to_Q r = Some v /\ (v == dyadic (if s then - W else W) E)%Q.
Proof.
  intros [[HW Hr]|(m & e2 & Hr & He2 & HW)]; subst r.
  - exists 0%Q. split; [reflexivity|]. subst W.
    destruct s; cbn [Z.opp]; now rewrite dyadic_0.
  - rewrite to_Q_finite. eexists. split; [reflexivity|].
    rewrite (dyadic_shift _ e2 E) by lia. subst W.
    destruct s; [|reflexivity].
    change (Z.neg m) with (- Z.pos m). now rewrite Z.mul_opp_l.
Qed.

(** The magnitude side of rounding: [p * 2^e] and the value [W * 2^E] it is
    rounded to lie on the same side of every representable number. *)
Lemma round_between_Q (p : positive) (W e a k : Z) :
  let E := fexp 24 128 (Z.pos (digits2_pos p) + e) in
  let c := Z.min e E in
  0 <= W ->
  Z.abs (W * 2 ^ (E - c) - Z.pos p * 2 ^ (e - c)) < 2 ^ (E - c) ->
  Z.abs a <= 2 ^ 24 -> -149 <= k ->
  ((dyadic a k <= dyadic (Z.pos p) e)%Q -> (dyadic a k <= dyadic W E)%Q) /\
  ((dyadic (Z.pos p) e <= dyadic a k)%Q -> (dyadic W E <= dyadic a k)%Q).
Proof.
  intros E c HW Hnear Ha Hk.
  set (c' := Z.min c k).
  destruct (round_between p W e a k c' HW Hnear Ha Hk ltac:(lia) ltac:(lia))
    as [Hlo Hhi]. fold E in Hlo, Hhi.
  split; intros H.
  - apply (dyadic_le_iff a k (Z.pos p) e c') in H; [|lia|lia].
    apply (dyadic_le_iff a k W E c'); [lia|lia|]. now apply Hlo.
  - apply (dyadic_le_iff (Z.pos p) e a k c') in H; [|lia|lia].
    apply (dyadic_le_iff W E a k c'); [lia|lia|]. now apply Hhi.
Qed.

(** A representable upper bound of [p * 2^e] keeps the rounding away from
    overflow. *)
Lemma magnitude_bound (p : positive) (e a k : Z) :
  Z.abs a <= 2 ^ 24 -> k <= 100 ->
  (dyadic (Z.pos p) e <= dyadic a k)%Q ->
  Z.pos (digits2_pos p) + e <= 127.
Proof.
  intros Ha Hk H.
  pose proof (digits2_pos_bounds p) as Hd.
  set (d := Z.pos (digits2_pos p)) in *.
  set (c := Z.min e k).
  apply (dyadic_le_iff (Z.pos p) e a k c) in H; [|lia|lia].
  assert (HB : 0 < 2 ^ (e - c)) by (apply pow2_pos; lia).
  assert (HK : 0 < 2 ^ (k - c)) by (apply pow2_pos; lia).
  assert (H1 : 2 ^ (d - 1) * 2 ^ (e - c) <= 2 ^ 24 * 2 ^ (k - c)) by nia.
  rewrite <- !pow2_split in H1 by (unfold d; lia).
  apply Z.pow_le_mono_r_iff in H1; lia.
Qed.

Lemma binary_round_aux_near (s : bool) (p : positive) (e : Z) :
  let E := fexp 24 128 (Z.pos (digits2_pos p) + e) in
  e <= E -> Z.pos (digits2_pos p) + e <= 127 ->
  exists W : Z,
    0 <= W /\
    encodes s W E (binary_round_aux 24 128 s (Z.pos p) e loc_Exact) /\
    Z.abs (W * 2 ^ (E - Z.min e E) - Z.pos p * 2 ^ (e - Z.min e E))
    < 2 ^ (E - Z.min e E).
Proof.
  intros E He Hmax.
  destruct (binary_round_aux_spec s p e He Hmax) as (W & Hnear & Hexact & Henc).
  fold E in Hnear, Hexact, Henc.
  assert (Hpow : 0 < 2 ^ (E - e)) by (apply pow2_pos; lia).
  assert (0 <= Z.pos p / 2 ^ (E - e)) by (apply Z.div_pos; lia).
  exists W. split; [lia|]. split; [exact Henc|].
  replace (Z.min e E) with e by lia. rewrite Z.sub_diag, Z.pow_0_r, Z.mul_1_r.
  pose proof (Z.div_mod (Z.pos p) (2 ^ (E - e)) ltac:(lia)) as Hdm.
  pose proof (Z.mod_pos_bound (Z.pos p) (2 ^ (E - e)) Hpow) as Hb.
  destruct (Z.eq_dec (Z.pos p mod 2 ^ (E - e)) 0) as [H0|H0].
  - rewrite (Hexact H0). nia.
  - nia.
Qed.

Lemma near_between (s : bool) (p : positive) (e W : Z) (r : spec_float)
    (lo hi : Q) :
  let E := fexp 24 128 (Z.pos (digits2_pos p) + e) in
  0 <= W -> encodes s W E r ->
  Z.abs (W * 2 ^ (E - Z.min e E) - Z.pos p * 2 ^ (e - Z.min e E))
  < 2 ^ (E - Z.min e E) ->
  representable lo -> representable hi ->
  (lo <= dyadic (if s then Z.neg p else Z.pos p) e <= hi)%Q ->
  exists v, Binary32.to_Q r = Some v /\ (lo <= v <= hi)%Q.
Proof.
  intros E. subst E.
  intros HW Henc Hnear (a & k & Ha & Hk & Hlo) (b & j & Hb & Hj & Hhi) [Hl Hh].
  rewrite Hlo in Hl. rewrite Hhi in Hh.
  destruct (encodes_value _ _ _ _ Henc) as (v & Hv & Hval).
  exists v. split; [exact Hv|]. rewrite Hval, Hlo, Hhi.
  destruct s.
  - change (Z.neg p) with (- Z.pos p) in *.
    destruct (round_between_Q p W e (- a) k HW Hnear
                ltac:(now rewrite Z.abs_opp) ltac:(lia)) as [_ Ha'].
    destruct (round_between_Q p W e (- b) j HW Hnear
                ltac:(now rewrite Z.abs_opp) ltac:(lia)) as [Hb' _].
    rewrite !dyadic_opp in *.
    split; [assert (dyadic W _ <= - dyadic a k)%Q by (apply Ha'; lra)
           |assert (- dyadic b j <= dyadic W _)%Q by (apply Hb'; lra)]; lra.
  - destruct (round_between_Q p W e a k HW Hnear Ha ltac:(lia)) as [Ha' _].
    destruct (round_between_Q p W e b j HW Hnear Hb ltac:(lia)) as [_ Hb'].
    split; [now apply Ha'|now apply Hb'].
Qed.

Lemma magnitude_signed (s : bool) (p : positive) (e : Z) (lo hi : Q) :
  representable lo -> representable hi ->
  (lo <= dyadic (if s then Z.neg p else Z.pos p) e <= hi)%Q ->
  Z.pos (digits2_pos p) + e <= 127.
Proof.
  intros (a & k & Ha & Hk & Hlo) (b & j & Hb & Hj & Hhi) [Hl Hh].
  rewrite Hlo in Hl. rewrite Hhi in Hh.
  destruct s.
  - apply (magnitude_bound p e (- a) k); [now rewrite Z.abs_opp|lia|].
    change (Z.neg p) with (- Z.pos p) in Hl.
    rewrite dyadic_opp in *. lra.
  - now apply (magnitude_bound p e b j); [|lia|].
Qed.

Lemma binary_round_between (s : bool) (p : positive) (e : Z) (lo hi : Q) :
  representable lo -> representable hi ->
  (lo <= dyadic (if s then Z.neg p else Z.pos p) e <= hi)%Q ->
  exists v, Binary32.to_Q (binary_round 24 128 s p e) = Some v /\ (lo <= v <= hi)%Q.
Proof.
  intros Hlo Hhi H.
  pose proof (magnitude_signed s p e lo hi Hlo Hhi H) as Hmax.
  destruct (binary_round_spec s p e Hmax) as (W & HW & Henc & Hnear).
  now apply (near_between s p e W _ lo hi).
Qed.

Lemma binary_round_aux_between (s : bool) (p : positive) (e : Z) (lo hi : Q) :
  e <= fexp 24 128 (Z.pos (digits2_pos p) + e) ->
  representable lo -> representable hi ->
  (lo <= dyadic (if s then Z.neg p else Z.pos p) e <= hi)%Q ->
  exists v, Binary32.to_Q (binary_round_aux 24 128 s (Z.pos p) e loc_Exact)
            = Some v /\ (lo <= v <= hi)%Q.
Proof.
  intros He Hlo Hhi H.
  pose proof (magnitude_signed s p e lo hi Hlo Hhi H) as Hmax.
  destruct (binary_round_aux_near s p e He Hmax) as (W & HW & Henc & Hnear).
  now apply (near_between s p e W _ lo hi).
Qed.

Lemma binary_normalize_between (m e : Z) (lo hi : Q) :
  representable lo -> representable hi ->
  (lo <= dyadic m e <= hi)%Q ->
  exists v, Binary32.to_Q (binary_normalize 24 128 m e false) = Some v /\
            (lo <= v <= hi)%Q.
Proof.
  intros Hlo Hhi H. destruct m as [|p|p]; cbn [binary_normalize].
  - exists 0%Q. split; [reflexivity|]. now rewrite dyadic_0 in H.
  - now apply (binary_round_between false).
  - now apply (binary_round_between true).
Qed.

Lemma shl_align_value (m : positive) (e ez : Z) :
  ez <= e -> Z.pos (fst (shl_align m e ez)) = Z.pos m * 2 ^ (e - ez).
Proof.
  intros He. unfold shl_align.
  destruct (ez - e) as [|d|d] eqn:Hd; cbn [fst]; try lia.
  - replace (e - ez) with 0 by lia. lia.
  - rewrite iter_xO_value. f_equal. f_equal. lia.
Qed.

Lemma aligned_value (s : bool) (m : positive) (e ez : Z) :
  ez <= e ->
  (dyadic (cond_Zopp s (Z.pos (fst (shl_align m e ez)))) ez
   == dyadic (if s then Z.neg m else Z.pos m) e)%Q.
Proof.
  intros He. rewrite shl_align_value by exact He.
  rewrite (dyadic_shift _ e ez He).
  destruct s; cbn [cond_Zopp]; [|reflexivity].
  change (Z.neg m) with (- Z.pos m). now rewrite Z.mul_opp_l.
Qed.

Lemma add_between (x y : spec_float) (vx vy lo hi : Q) :
  Binary32.to_Q x = Some vx -> Binary32.to_Q y = Some vy ->
  representable lo -> representable hi ->
  (lo <= vx + vy <= hi)%Q ->
  exists w, Binary32.to_Q (Binary32.add x y) = Some w /\ (lo <= w <= hi)%Q.
Proof.
  intros Hx Hy Hlo Hhi H. unfold Binary32.add, Binary32.prec, Binary32.emax.
  destruct x as [sx|sx| |sx mx ex]; try discriminate;
    destruct y as [sy|sy| |sy my ey]; try discriminate.
  - injection Hx as <-. injection Hy as <-.
    exists 0%Q. split; [destruct sx, sy; reflexivity|]. lra.
  - injection Hx as <-. exists vy. split; [exact Hy|]. lra.
  - injection Hy as <-. exists vx. split; [exact Hx|]. lra.
  - rewrite to_Q_finite in Hx, Hy. injection Hx as <-. injection Hy as <-.
    cbn [SFadd]. apply binary_normalize_between; try assumption.
    rewrite dyadic_plus, !aligned_value by lia. exact H.
Qed.

Lemma sub_between (x y : spec_float) (vx vy lo hi : Q) :
  Binary32.to_Q x = Some vx -> Binary32.to_Q y = Some vy ->
  representable lo -> representable hi ->
  (lo <= vx - vy <= hi)%Q ->
  exists w, Binary32.to_Q (Binary32.sub x y) = Some w /\ (lo <= w <= hi)%Q.
Proof.
  intros Hx Hy Hlo Hhi H. unfold Binary32.sub, Binary32.prec, Binary32.emax.
  destruct x as [sx|sx| |sx mx ex]; try discriminate;
    destruct y as [sy|sy| |sy my ey]; try discriminate.
  - injection Hx as <-. injection Hy as <-.
    exists 0%Q. split; [destruct sx, sy; reflexivity|]. lra.
  - injection Hx as <-. rewrite to_Q_finite in Hy. injection Hy as <-.
    cbn [SFsub]. rewrite to_Q_finite. eexists. split; [reflexivity|].
    assert (Hopp : (dyadic (if negb sy then Z.neg my else Z.pos my) ey
                    == - dyadic (if sy then Z.neg my else Z.pos my) ey)%Q).
    { rewrite <- dyadic_opp. destruct sy; reflexivity. }
    rewrite Hopp. lra.
  - injection Hy as <-. exists vx. split; [exact Hx|]. lra.
  - rewrite to_Q_finite in Hx, Hy. injection Hx as <-. injection Hy as <-.
    cbn [SFsub]. apply binary_normalize_between; try assumption.
    unfold Z.sub. rewrite dyadic_plus, dyadic_opp, !aligned_value by lia.
    exact H.
Qed.

(** The product of two floats, the second with a full mantissa, lies between
    any two representable numbers that enclose the exact product. *)
Lemma mul_between (x y : Binary32.float) (vx vy lo hi : Q) :
  Binary32.to_Q x = Some vx -> Binary32.to_Q y = Some vy ->
  match y with
  | S754_finite _ my _ => Z.pos (digits2_pos my) = 24
  | _ => True
  end ->
  representable lo -> representable hi ->
  (lo <= vx * vy <= hi)%Q ->
  exists w, Binary32.to_Q (Binary32.mul x y) = Some w /\ (lo <= w <= hi)%Q.
Proof.
  intros Hx Hy Hfull Hlo Hhi H.
  destruct x as [sx|sx| |sx mx ex], y as [sy|sy| |sy my ey];
    try discriminate Hx; try discriminate Hy.
  - cbn in Hx, Hy. injection Hx as <-. injection Hy as <-.
    exists 0%Q. split; [reflexivity|]. lra.
  - cbn in Hx. injection Hx as <-.
    exists 0%Q. split; [reflexivity|]. lra.
  - cbn in Hy. injection Hy as <-.
    exists 0%Q. split; [reflexivity|]. lra.
  - pose proof (to_Q_finite sx mx ex) as Ex. rewrite Hx in Ex.
    pose proof (to_Q_finite sy my ey) as Ey. rewrite Hy in Ey.
    injection Ex as Ex. injection Ey as Ey.
    unfold Binary32.mul, SFmul.
    apply binary_round_aux_between; [|exact Hlo|exact Hhi|].
    + rewrite fexp32.
      pose proof (digits2_pos_bounds mx) as Hdx.
      pose proof (digits2_pos_bounds my) as Hdy.
      pose proof (digits2_pos_bounds (mx * my)) as Hd.
      rewrite Hfull in Hdy.
      assert (Z.pos (digits2_pos mx) + 23 <= Z.pos (digits2_pos (mx * my))).
      { destruct (Z_le_gt_dec (Z.pos (digits2_pos mx) + 23)
                    (Z.pos (digits2_pos (mx * my)))) as [Hk|Hk]; [exact Hk|].
        exfalso.
        assert (2 ^ Z.pos (digits2_pos (mx * my))
                <= 2 ^ (Z.pos (digits2_pos mx) - 1 + 23))
          by (apply pow2_le; lia).
        rewrite pow2_split in H0 by lia.
        rewrite Pos2Z.inj_mul in Hd.
        change (2 ^ (24 - 1)) with (2 ^ 23) in Hdy.
        clear - Hdx Hdy Hd H0. nia. }
      lia.
    + assert (E : (dyadic (if xorb sx sy then Z.neg (mx * my)
                           else Z.pos (mx * my)) (ex + ey) == vx * vy)%Q).
      { rewrite Ex, Ey, !dyadic_value, Qpow2_add.
        destruct sx, sy; cbn [xorb];
          change (Z.neg (mx * my)) with (- (Z.pos mx * Z.pos my));
          change (Z.pos (mx * my)) with (Z.pos mx * Z.pos my);
          change (Z.neg mx) with (- Z.pos mx);
          change (Z.neg my) with (- Z.pos my);
          rewrite ?inject_Z_opp, ?inject_Z_mult, ?inject_Z_opp; ring. }
      rewrite E. exact H.
Qed.

Lemma Qpow2_cancel (u : Z) : (2 ^ (- u) * 2 ^ u == 1)%Q.
Proof. rewrite <- Qpow2_add. replace (- u + u) with 0 by lia. reflexivity. Qed.

Lemma Qceiling_floor (x : Q) : Qceiling x <= Qfloor x + 1.
Proof.
  pose proof (Qceiling_lt x) as H1. pose proof (Qlt_floor x) as H2.
  assert (H : (inject_Z (Qceiling x - 1) < inject_Z (Qfloor x + 1))%Q) by lra.
  rewrite <- Zlt_Qlt in H. lia.
Qed.

Lemma grid_enclose (u : Z) (x : Q) :
  (grid_floor u x <= x <= grid_ceiling u x)%Q /\
  (grid_ceiling u x - grid_floor u x <= 2 ^ u)%Q.
Proof.
  unfold grid_floor, grid_ceiling. rewrite !dyadic_value.
  pose proof (Qpow2_pos u) as Hp. pose proof (Qpow2_cancel u) as Hc.
  set (y := (x * 2 ^ (- u))%Q).
  assert (Hx : (x == y * 2 ^ u)%Q).
  { unfold y. rewrite <- Qmult_assoc, Hc. ring. }
  pose proof (Qfloor_le y) as Hf. pose proof (Qle_ceiling y) as Hcl.
  pose proof (Qceiling_floor y) as Hcf.
  rewrite Zle_Qle, inject_Z_plus in Hcf. change (inject_Z 1) with 1%Q in Hcf.
  set (P := (2 ^ u)%Q) in *.
  set (F := inject_Z (Qfloor y)) in *. set (C := inject_Z (Qceiling y)) in *.
  rewrite Hx. clear Hx Hc.
  assert (F * P <= y * P)%Q by (apply Qmult_le_r; assumption).
  assert (y * P <= C * P)%Q by (apply Qmult_le_r; assumption).
  assert (C * P <= (F + 1) * P)%Q by (apply Qmult_le_r; assumption).
  repeat split; try assumption. lra.
Qed.

Lemma grid_representable (u : Z) (x : Q) :
  -149 <= u <= 100 -> (Qabs x <= 2 ^ (u + 24))%Q ->
  representable (grid_floor u x) /\ representable (grid_ceiling u x).
Proof.
  intros Hu Hx. apply Qabs_Qle_condition in Hx as [Hlo Hhi].
  pose proof (Qpow2_pos (- u)) as Hp.
  assert (Hs : (2 ^ (u + 24) * 2 ^ (- u) == inject_Z (2 ^ 24))%Q).
  { rewrite <- Qpow2_add. replace (u + 24 + - u) with 24 by lia. reflexivity. }
  set (y := (x * 2 ^ (- u))%Q).
  assert (Hy : (inject_Z (- 2 ^ 24) <= y <= inject_Z (2 ^ 24))%Q).
  { assert (H1 : ((- 2 ^ (u + 24)) * 2 ^ (- u) <= y)%Q)
      by (apply Qmult_le_r; assumption).
    assert (H2 : (y <= 2 ^ (u + 24) * 2 ^ (- u))%Q)
      by (apply Qmult_le_r; assumption).
    rewrite inject_Z_opp. lra. }
  destruct Hy as [Hyl Hyh].
  pose proof (Qfloor_resp_le _ _ Hyl) as F1. pose proof (Qfloor_resp_le _ _ Hyh) as F2.
  pose proof (Qceiling_resp_le _ _ Hyl) as Ce1.
  pose proof (Qceiling_resp_le _ _ Hyh) as Ce2.
  rewrite Qfloor_Z in F1, F2. rewrite Qceiling_Z in Ce1, Ce2.
  split.
  - exists (Qfloor y), u. split; [lia|]. split; [lia|reflexivity].
  - exists (Qceiling y), u. split; [lia|]. split; [lia|reflexivity].
Qed.

(** Addition and subtraction are off by less than one unit [2^u] of the
    binade their exact result falls in. *)
Lemma add_error (u : Z) (x y : spec_float) (vx vy : Q) :
  Binary32.to_Q x = Some vx -> Binary32.to_Q y = Some vy ->
  -149 <= u <= 100 -> (Qabs (vx + vy) <= 2 ^ (u + 24))%Q ->
  exists w, Binary32.to_Q (Binary32.add x y) = Some w /\ (Qabs (w - (vx + vy)) <= 2 ^ u)%Q.
Proof.
  intros Hx Hy Hu Hb.
  destruct (grid_representable u _ Hu Hb) as [Rlo Rhi].
  destruct (grid_enclose u (vx + vy)) as [Henc Hwidth].
  destruct (add_between x y vx vy _ _ Hx Hy Rlo Rhi Henc) as (w & Hw & Hin).
  exists w. split; [exact Hw|]. apply Qabs_Qle_condition. lra.
Qed.

Lemma sub_error (u : Z) (x y : spec_float) (vx vy : Q) :
  Binary32.to_Q x = Some vx -> Binary32.to_Q y = Some vy ->
  -149 <= u <= 100 -> (Qabs (vx - vy) <= 2 ^ (u + 24))%Q ->
  exists w, Binary32.to_Q (Binary32.sub x y) = Some w /\ (Qabs (w - (vx - vy)) <= 2 ^ u)%Q.
Proof.
  intros Hx Hy Hu Hb.
  destruct (grid_representable u _ Hu Hb) as [Rlo Rhi].
  destruct (grid_enclose u (vx - vy)) as [Henc Hwidth].
  destruct (sub_between x y vx vy _ _ Hx Hy Rlo Rhi Henc) as (w & Hw & Hin).
  exists w. split; [exact Hw|]. apply Qabs_Qle_condition. lra.
Qed.

Lemma representable_small_int (n : Z) : Z.abs n <= 2 ^ 24 -> representable (inject_Z n).
Proof. intros Hn. exists n, 0. split; [exact Hn|]. split; [lia|reflexivity]. Qed.

Lemma representable_multiple (j u : Z) :
  Z.abs j <= 2 ^ 24 -> -149 <= u <= 100 -> representable (dyadic j u).
Proof. intros Hj Hu. exists j, u. split; [exact Hj|]. split; [exact Hu|reflexivity]. Qed.

(** ** Dithering *)

Lemma last_cons_default {A : Type} (l : list A) : forall x d,
  List.last (x :: l) d = List.last l x.
Proof.
  induction l as [|y l IH]; intros x d; [reflexivity|].
  change (List.last (x :: y :: l) d) with (List.last (y :: l) d).
  now rewrite !IH.
Qed.

Lemma dither_frames_channels `{CRand} (frames : list sample_pair) :
  forall (l_prev r_prev : Binary32.float) (g : rng),
  let '(out, lp, rp, g') := dither_frames frames l_prev r_prev g in
  let (ds, g'') := noise_pairs (length frames) g in
  map fst out = triangle (map fst frames) (map fst ds) l_prev /\
  map snd out = triangle (map snd frames) (map snd ds) r_prev /\
  lp = List.last (map fst ds) l_prev /\
  rp = List.last (map snd ds) r_prev /\
  g' = g''.
Proof.
  induction frames as [|[l r] frames IH]; intros l_prev r_prev g.
  - simpl. auto.
  - cbn [dither_frames noise_pairs length]. unfold TriangleDither.
    destruct (DITHER_NOISE g) as [dl g1].
    destruct (DITHER_NOISE g1) as [dr g2].
    specialize (IH dl dr g2).
    destruct (dither_frames frames dl dr g2) as [[[out lp] rp] g3].
    destruct (noise_pairs (length frames) g2) as [ds g4].
    destruct IH as (Hl & Hr & Hlp & Hrp & Hg).
    cbn [map fst snd triangle]. rewrite Hl, Hr.
    repeat split; try assumption.
    + now rewrite last_cons_default.
    + now rewrite last_cons_default.
Qed.

Lemma dither_frames_app `{CRand} (frames1 frames2 : list sample_pair) :
  forall (l_prev r_prev : Binary32.float) (g : rng),
  dither_frames (frames1 ++ frames2) l_prev r_prev g =
    let '(out1, l1, r1, g1) := dither_frames frames1 l_prev r_prev g in
    let '(out2, l2, r2, g2) := dither_frames frames2 l1 r1 g1 in
    (out1 ++ out2, l2, r2, g2).
Proof.
  induction frames1 as [|[l r] frames1 IH]; intros l_prev r_prev g.
  - cbn [app dither_frames].
    now destruct (dither_frames frames2 l_prev r_prev g) as [[[out2 l2] r2] g2].
  - cbn [app dither_frames].
    destruct (TriangleDither l l_prev g) as [[l' lp] g1].
    destruct (TriangleDither r r_prev g1) as [[r' rp] g2].
    rewrite IH.
    destruct (dither_frames frames1 lp rp g2) as [[[out1 l1] r1] g3].
    now destruct (dither_frames frames2 l1 r1 g3) as [[[out2 l2] r2] g4].
Qed.

(** C4.  [TriangleDither] draws a fresh [DITHER_NOISE] value [d], replaces
    the sample by [sample + (d - prev_dither)] and stores [d] as the new
    [prev_dither]; in the conversion pass each channel is dithered against
    its own state: the left outputs are the triangular dithering of the
    left samples with the draws the left channel received, starting from
    [m_l_dither_prev], the right outputs that of the right samples with the
    right channel's draws, starting from [m_r_dither_prev], and each state
    ends as the last draw of its channel.  The states persist in the
    engine: two passes in a row dither like one pass over both buffers. *)
Theorem triangular_dithering_per_channel `{CRand} :
  (forall (sample prev_dither : Binary32.float) (g : rng),
     TriangleDither sample prev_dither g =
       (Binary32.add sample (Binary32.sub (fst (DITHER_NOISE g)) prev_dither),
        fst (DITHER_NOISE g), snd (DITHER_NOISE g))) /\
  (forall (frames : list sample_pair) (l_prev r_prev : Binary32.float)
          (g : rng),
     let '(out, l_prev', r_prev', g') := dither_frames frames l_prev r_prev g in
     let (ds, g'') := noise_pairs (length frames) g in
     map fst out = triangle (map fst frames) (map fst ds) l_prev /\
     map snd out = triangle (map snd frames) (map snd ds) r_prev /\
     l_prev' = List.last (map fst ds) l_prev /\
     r_prev' = List.last (map snd ds) r_prev /\
     g' = g'') /\
  (forall (frames1 frames2 : list sample_pair) (m : CMixer) (g : rng),
     let '(out1, m1, g1) := CMixer_dither frames1 m g in
     let '(out2, m2, g2) := CMixer_dither frames2 m1 g1 in
     CMixer_dither (frames1 ++ frames2) m g = (out1 ++ out2, m2, g2)).
Proof.
  split; [|split].
  - intros sample prev_dither g. unfold TriangleDither.
    now destruct (DITHER_NOISE g).
  - intros frames l_prev r_prev g. apply dither_frames_channels.
  - intros frames1 frames2 m g. unfold CMixer_dither.
    rewrite dither_frames_app.
    destruct (dither_frames frames1 (m_l_dither_prev m) (m_r_dither_prev m) g)
      as [[[out1 l1] r1] g1].
    cbn [with_dither m_l_dither_prev m_r_dither_prev].
    now destruct (dither_frames frames2 l1 r1 g1) as [[[out2 l2] r2] g2].
Qed.

(** ** The range of the dither noise *)

Lemma msvc_rand_range (seed : Z) : 0 <= fst (msvc_rand seed) <= 32767.
Proof.
  unfold msvc_rand. cbn [fst].
  replace (Z.land (Z.shiftr (u32 (seed * 214013 + 2531011)) 16) 32767)
    with (Z.shiftr (u32 (seed * 214013 + 2531011)) 16 mod 32768).
  - pose proof (Z.mod_pos_bound (Z.shiftr (u32 (seed * 214013 + 2531011)) 16)
                  32768 ltac:(lia)). lia.
  - change 32767 with (Z.ones 15). now rewrite Z.land_ones by lia.
Qed.

Lemma float_value_to_Q (x : Binary32.float) (v : Q) :
  Binary32.to_Q x = Some v -> float_value x = v.
Proof. intros Hx. unfold float_value. now rewrite Hx. Qed.

Lemma to_Q_is_finite (x : Binary32.float) (v : Q) :
  Binary32.to_Q x = Some v -> Binary32.is_finite x = true.
Proof. destruct x; cbn; congruence. Qed.

Lemma representable_8 : representable 8 /\ representable (-8).
Proof.
  split; [apply (representable_small_int 8)|apply (representable_small_int (-8))];
    cbn; lia.
Qed.

(** The noise of any [rand()] result, wherever [rand_max_okb] holds: no
    table, the three operations bounded one after the other. *)
Lemma noise_range (rand_max r : Z) :
  rand_max_okb rand_max = true -> 0 <= r <= rand_max ->
  exists q, Binary32.to_Q (Binary32Noise.DITHER_NOISE rand_max r) = Some q /\
            (-4 <= q <= 4)%Q.
Proof.
  unfold rand_max_okb, Binary32Noise.DITHER_NOISE. intros Hok Hr.
  destruct (Binary32.of_int rand_max) as [| | |[|] mf ef] eqn:Ef;
    try discriminate Hok.
  destruct (Binary32Noise.rndrcp rand_max) as [| | |[|] mc ec] eqn:Ec;
    try discriminate Hok.
  repeat (apply andb_true_iff in Hok as [Hok ?]).
  apply Z.eqb_eq in Hok.
  repeat match goal with
         | H : (_ <=? _) = true |- _ => apply Z.leb_le in H
         | H : Qle_bool _ _ = true |- _ => apply Qle_bool_iff in H
         end.
  assert (RF : representable (dyadic (Z.pos mf) ef)).
  { exists (Z.pos mf), ef. split; [lia|]. split; [lia|reflexivity]. }
  assert (R0 : representable 0).
  { apply (representable_small_int 0). cbn. lia. }
  destruct representable_8 as [R8 _].
  assert (R4 : representable 4)
    by (apply (representable_small_int 4); cbn; lia).
  assert (Rm4 : representable (-4))
    by (apply (representable_small_int (-4)); cbn; lia).
  destruct (binary_normalize_between r 0 0 (dyadic (Z.pos mf) ef) R0 RF)
    as (vx & Hx & Hvx).
  { change (dyadic r 0) with (inject_Z r).
    assert (inject_Z 0 <= inject_Z r)%Q by (rewrite <- Zle_Qle; lia).
    assert (inject_Z r <= inject_Z rand_max)%Q by (rewrite <- Zle_Qle; lia).
    change (inject_Z 0) with 0%Q in *. lra. }
  fold (Binary32.of_int r) in Hx.
  assert (HC : (0 <= dyadic (Z.pos mc) ec)%Q).
  { rewrite dyadic_value. pose proof (Qpow2_pos ec).
    assert (inject_Z 0 <= inject_Z (Z.pos mc))%Q by (rewrite <- Zle_Qle; lia).
    change (inject_Z 0) with 0%Q in *. nra. }
  destruct (mul_between (Binary32.of_int r) (S754_finite false mc ec)
              vx (dyadic (Z.pos mc) ec) 0 8 Hx (to_Q_finite false mc ec)
              Hok R0 R8) as (vp & Hp & Hvp).
  { nra. }
  assert (H4 : exists v4, Binary32.to_Q (Binary32.of_int 4) = Some v4 /\
                          (v4 == 4)%Q).
  { eexists. split; reflexivity. }
  destruct H4 as (v4 & H4 & E4).
  destruct (sub_between _ _ vp v4 (-4) 4 Hp H4 Rm4 R4) as (q & Hq & Hvq).
  { lra. }
  exists q. auto.
Qed.

Lemma rand_max_ok_msvc : rand_max_okb 32767 = true.
Proof. vm_compute. reflexivity. Qed.

Lemma rand_max_ok_glibc : rand_max_okb 2147483647 = true.
Proof. vm_compute. reflexivity. Qed.

Lemma rounding_slack_succ (b : Z) (n : nat) :
  (rounding_slack b (S n) == rounding_slack b n + (2 ^ (b - 24) + 2 ^ (-21)))%Q.
Proof.
  unfold rounding_slack. rewrite Nat2Z.inj_succ. unfold Z.succ.
  rewrite inject_Z_plus. change (inject_Z 1) with 1%Q. ring.
Qed.

Lemma rounding_slack_nonneg (b : Z) (n : nat) : (0 <= rounding_slack b n)%Q.
Proof.
  unfold rounding_slack.
  pose proof (Qpow2_pos (b - 24)). pose proof (Qpow2_pos (-21)).
  apply Qmult_le_0_compat; [|lra].
  change 0%Q with (inject_Z 0). rewrite <- Zle_Qle. lia.
Qed.

Lemma dither_run_shape `{CRand} (samples : list Binary32.float) :
  forall (prev : Binary32.float) (g : rng),
  length (fst (fst (dither_run samples prev g))) = length samples /\
  snd (fst (dither_run samples prev g))
  = List.last (fst (noise (length samples) g)) prev /\
  snd (dither_run samples prev g) = snd (noise (length samples) g).
Proof.
  induction samples as [|s rest IH]; intros prev g; [now cbn|].
  cbn [dither_run noise length]. unfold TriangleDither.
  destruct (DITHER_NOISE g) as [d g1].
  specialize (IH d g1).
  destruct (dither_run rest d g1) as [[out final] g2].
  destruct (noise (length rest) g1) as [ds g3].
  cbn [fst snd length] in *. destruct IH as (Hlen & Hfin & Hg).
  rewrite Hlen, last_cons_default. auto.
Qed.

Section DitherBounds.
Context `{CRand}.
Hypothesis RAND_MAX_known : RAND_MAX = 32767 \/ RAND_MAX = 2147483647.
Hypothesis rand_range : forall g, 0 <= fst (rand g) <= RAND_MAX.

Lemma DITHER_NOISE_range (g : rng) : in_noise_range (fst (DITHER_NOISE g)).
Proof.
  unfold DITHER_NOISE, in_noise_range, DITHER_MIN, DITHER_MAX.
  pose proof (rand_range g) as Hr.
  destruct (rand g) as [r g']. cbn [fst] in *.
  apply noise_range; [|exact Hr].
  destruct RAND_MAX_known as [-> | ->];
    [apply rand_max_ok_msvc|apply rand_max_ok_glibc].
Qed.

(** The difference of two values in the noise range, as [TriangleDither]
    computes it: within [[-8, 8]] and within [2^-21] of the exact one. *)
Lemma dither_difference (d p : Binary32.float) (vd vp : Q) :
  Binary32.to_Q d = Some vd -> Binary32.to_Q p = Some vp ->
  (-4 <= vd <= 4)%Q -> (-4 <= vp <= 4)%Q ->
  exists o, Binary32.to_Q (Binary32.sub d p) = Some o /\
            (-8 <= o <= 8)%Q /\ (Qabs (o - (vd - vp)) <= 2 ^ (-21))%Q.
Proof.
  intros Hd Hp Hvd Hvp.
  destruct (sub_error (-21) d p vd vp Hd Hp ltac:(lia)) as (o & Ho & Herr).
  { change (2 ^ (-21 + 24))%Q with 8%Q. apply Qabs_Qle_condition. lra. }
  destruct representable_8 as [R8 Rm8].
  destruct (sub_between d p vd vp (-8) 8 Hd Hp Rm8 R8 ltac:(lra))
    as (o' & Ho' & Hrange).
  rewrite Ho in Ho'. injection Ho' as <-.
  exists o. auto.
Qed.

(** One call: the offset of the sample against the difference of the two
    dither values. *)
Lemma TriangleDither_step (b : Z) (sample prev : Binary32.float) (g : rng)
    (vs vp : Q) :
  Binary32.to_Q sample = Some vs -> Binary32.to_Q prev = Some vp ->
  4 <= b <= 100 -> (Qabs vs <= 2 ^ b - 8)%Q -> (-4 <= vp <= 4)%Q ->
  exists vs' vd,
    Binary32.to_Q (fst (fst (TriangleDither sample prev g))) = Some vs' /\
    Binary32.to_Q (fst (DITHER_NOISE g)) = Some vd /\ (-4 <= vd <= 4)%Q /\
    (Qabs (vs' - vs - (vd - vp)) <= 2 ^ (b - 24) + 2 ^ (-21))%Q.
Proof.
  intros Hs Hp Hb Hvs Hvp.
  destruct (DITHER_NOISE_range g) as (vd & Hd & Hvd).
  unfold DITHER_MIN, DITHER_MAX in Hvd.
  unfold TriangleDither. destruct (DITHER_NOISE g) as [d g']. cbn [fst snd] in *.
  destruct (dither_difference d prev vd vp Hd Hp Hvd Hvp)
    as (o & Ho & Hrange & Herr).
  apply Qabs_Qle_condition in Hvs as [Hvl Hvh].
  destruct (add_error (b - 24) sample (Binary32.sub d prev) vs o Hs Ho ltac:(lia))
    as (w & Hw & Herr2).
  { replace (b - 24 + 24) with b by lia. apply Qabs_Qle_condition. lra. }
  exists w, vd. repeat split; try assumption; try tauto.
  apply Qabs_Qle_condition in Herr as [E1 E2].
  apply Qabs_Qle_condition in Herr2 as [E3 E4].
  apply Qabs_Qle_condition. lra.
Qed.

Lemma dither_run_error (b : Z) (samples : list Binary32.float) :
  4 <= b <= 100 -> Forall (sample_below b) samples ->
  forall (prev : Binary32.float) (g : rng) (vp : Q),
  Binary32.to_Q prev = Some vp -> (-4 <= vp <= 4)%Q ->
  let '(out, final, _) := dither_run samples prev g in
  Forall (fun o => Binary32.is_finite o = true) out /\
  exists vf, Binary32.to_Q final = Some vf /\ (-4 <= vf <= 4)%Q /\
    (Qabs (total_offset out samples - (vf - vp))
     <= rounding_slack b (length samples))%Q.
Proof.
  intros Hb Hall. induction Hall as [|s rest Hs Hrest IH]; intros prev g vp Hp Hvp.
  - cbn [dither_run total_offset length]. split; [constructor|].
    exists vp. split; [exact Hp|]. split; [exact Hvp|].
    unfold rounding_slack. change (inject_Z (Z.of_nat 0)) with 0%Q.
    apply Qabs_Qle_condition. lra.
  - destruct Hs as (vs & Hvs & Hbound).
    destruct (TriangleDither_step b s prev g vs vp Hvs Hp Hb Hbound Hvp)
      as (vs' & vd & Hs' & Hd & Hvd & Herr).
    cbn [dither_run]. unfold TriangleDither in *.
    destruct (DITHER_NOISE g) as [d g1]. cbn [fst snd] in *.
    specialize (IH d g1 vd Hd Hvd).
    destruct (dither_run rest d g1) as [[out final] g2].
    destruct IH as (Hfin & vf & Hf & Hvf & Hsum).
    split; [constructor; [now apply (to_Q_is_finite _ vs')|exact Hfin]|].
    exists vf. split; [exact Hf|]. split; [exact Hvf|].
    cbn [total_offset length].
    rewrite (float_value_to_Q _ _ Hs'), (float_value_to_Q _ _ Hvs).
    rewrite rounding_slack_succ.
    apply Qabs_Qle_condition in Herr as [E1 E2].
    apply Qabs_Qle_condition in Hsum as [E3 E4].
    apply Qabs_Qle_condition. lra.
Qed.

End DitherBounds.

(** C10, as binary32 has it.  Where [RAND_MAX] is [32767] (the Microsoft
    runtime) or [2147483647] (the GNU C library) and [rand()] stays within
    [[0, RAND_MAX]]: for [n] consecutive [TriangleDither] calls on one
    dither state [d_0] within the noise range, on finite samples of a
    magnitude of at most [2^b - 8], the final state [d_n] is the last value
    drawn, every result is finite, and the offsets added to the [n] samples
    sum to [d_n - d_0] up to the rounding of the two operations of each
    call, no more than [2^(b-24) + 2^-21] a call; so the sum is at most [8],
    twice the amplitude [4], plus that rounding. *)
Theorem dither_offsets_telescope `{CRand} (b : Z)
    (samples : list Binary32.float) (prev : Binary32.float) (g : rng) :
  RAND_MAX = 32767 \/ RAND_MAX = 2147483647 ->
  (forall g', 0 <= fst (rand g') <= RAND_MAX) ->
  4 <= b <= 100 -> Forall (sample_below b) samples -> in_noise_range prev ->
  let '(out, final, _) := dither_run samples prev g in
  length out = length samples /\
  final = List.last (fst (noise (length samples) g)) prev /\
  Forall (fun o => Binary32.is_finite o = true) out /\
  in_noise_range final /\
  (Qabs (total_offset out samples - (float_value final - float_value prev))
   <= rounding_slack b (length samples))%Q /\
  (Qabs (total_offset out samples)
   <= 2 * DITHER_MAX + rounding_slack b (length samples))%Q /\
  (2 * DITHER_MAX == 8)%Q.
Proof.
  intros Hmax Hrand Hb Hall (vp & Hp & Hvp).
  unfold DITHER_MIN, DITHER_MAX in Hvp.
  pose proof (dither_run_shape samples prev g) as (Hlen & Hlast & _).
  pose proof (dither_run_error Hmax Hrand b samples Hb Hall prev g vp Hp Hvp)
    as Hrun.
  destruct (dither_run samples prev g) as [[out final] g'].
  cbn [fst snd] in Hlen, Hlast.
  destruct Hrun as (Hfin & vf & Hf & Hvf & Hsum).
  split; [exact Hlen|]. split; [exact Hlast|]. split; [exact Hfin|].
  split; [exists vf; unfold DITHER_MIN, DITHER_MAX; auto|].
  rewrite (float_value_to_Q _ _ Hf), (float_value_to_Q _ _ Hp).
  split; [exact Hsum|]. split; [|reflexivity].
  unfold DITHER_MAX.
  apply Qabs_Qle_condition in Hsum as [E1 E2].
  apply Qabs_Qle_condition. lra.
Qed.

Lemma dither_offsets_telescope_witness :
  let one := Binary32.of_int 1 in
  let '(out, final, _) :=
    dither_run (H := msvc_CRand) [one; one; one; one; one]
      (Binary32.of_int 0) (1 : Z) in
  (Qabs (total_offset out [one; one; one; one; one]
         - (float_value final - float_value (Binary32.of_int 0)))
   <= rounding_slack 4 5)%Q /\
  (Qabs (total_offset out [one; one; one; one; one])
   <= 2 * DITHER_MAX + rounding_slack 4 5)%Q.
Proof.
  cbv zeta.
  assert (Hone : sample_below 4 (Binary32.of_int 1)).
  { eexists. split; [reflexivity|]. vm_compute. discriminate. }
  assert (Hzero : in_noise_range (Binary32.of_int 0)).
  { eexists. split; [reflexivity|]. split; vm_compute; discriminate. }
  pose proof (dither_offsets_telescope (H := msvc_CRand) 4
                [Binary32.of_int 1; Binary32.of_int 1; Binary32.of_int 1;
                 Binary32.of_int 1; Binary32.of_int 1]
                (Binary32.of_int 0) (1 : Z)
                (or_introl eq_refl) msvc_rand_range ltac:(lia)
                ltac:(repeat constructor; exact Hone) Hzero) as Hrun.
  destruct (dither_run (H := msvc_CRand) _ (Binary32.of_int 0) (1 : Z))
    as [[out final] g'].
  destruct Hrun as (_ & _ & _ & _ & Hsum & Hbound & _).
  split; assumption.
Defined.

(** Against C10 as it is worded.  Five calls on the sample [1.0f] from the
    state [0] of the constructor, with the draws of the Microsoft runtime
    seeded with 1: all results are finite, and the offsets do not sum to
    [d_5 - d_0].  One call on the float nearest to [0.1] from the state
    [-4] (the state after a draw of [0]) with the draw [RAND_MAX]: the
    offset is more than [8]. *)
Lemma dither_offsets_do_not_telescope :
  (let one := Binary32.of_int 1 in
   let '(out, final, _) :=
     dither_run (H := msvc_CRand) [one; one; one; one; one]
       (Binary32.of_int 0) (1 : Z) in
   Forall (fun o => Binary32.is_finite o = true) out /\
   Binary32.is_finite final = true /\
   ~ (total_offset out [one; one; one; one; one]
      == float_value final - float_value (Binary32.of_int 0))%Q) /\
  (let x := lit_0_1 in
   let '(_, d1, g1) :=
     dither_run (H := msvc_CRand) [x] (Binary32.of_int 0) (1531484264 : Z) in
   let '(out, d2, _) := dither_run (H := msvc_CRand) [x] d1 g1 in
   fst (msvc_rand 1531484264) = 0 /\ fst (msvc_rand g1) = 32767 /\
   (float_value d1 == -4)%Q /\ (float_value d2 == 4)%Q /\
   Forall (fun o => Binary32.is_finite o = true) out /\
   ~ (Qabs (total_offset out [x]) <= 8)%Q).
Proof.
  split.
  - vm_compute. split; [repeat constructor|]. split; [reflexivity|].
    intros Heq. discriminate Heq.
  - vm_compute. repeat split; try reflexivity.
    + repeat constructor.
    + intros Hle. apply Hle. reflexivity.
Qed.

(** ** A constant signal through a fifo *)






Section PullDC.
Context `{MixerConstants}.

End PullDC.




(** ** A constant signal through the engine and the dither *)










Lemma dyadic_abs_le (j J u : Z) :
  (Qabs (dyadic j u) <= dyadic J u)%Q -> Z.abs j <= J.
Proof.
  intros Hle. apply Qabs_Qle_condition in Hle as [Hlo Hhi].
  rewrite <- dyadic_opp in Hlo.
  apply dyadic_le_same in Hlo. apply dyadic_le_same in Hhi. lia.
Qed.

(** A sum stays within [B] of the summand [x] when [x - B] and [x + B] are
    both representable: rounding cannot step over them. *)
Lemma add_within (u J : Z) (x y : Binary32.float) (vx vy : Q) :
  Binary32.to_Q x = Some vx -> Binary32.to_Q y = Some vy ->
  -149 <= u <= 100 -> 0 <= J <= 2 ^ 24 ->
  multiple_of_2pow u vx -> (Qabs vx <= dyadic (2 ^ 24 - J) u)%Q ->
  (Qabs vy <= dyadic J u)%Q ->
  exists w, Binary32.to_Q (Binary32.add x y) = Some w /\
            (Qabs (w - vx) <= dyadic J u)%Q.
Proof.
  intros Hx Hy Hu HJ (j & Hj) Hvx Hvy.
  rewrite Hj in Hvx. apply dyadic_abs_le in Hvx.
  apply Qabs_Qle_condition in Hvy as [Hyl Hyh].
  assert (Rlo : representable (vx - dyadic J u)).
  { exists (j - J), u. split; [lia|]. split; [exact Hu|].
    unfold Z.sub. now rewrite dyadic_plus, dyadic_opp, Hj. }
  assert (Rhi : representable (vx + dyadic J u)).
  { exists (j + J), u. split; [lia|]. split; [exact Hu|].
    now rewrite dyadic_plus, Hj. }
  destruct (add_between x y vx vy _ _ Hx Hy Rlo Rhi ltac:(lra))
    as (w & Hw & Hin).
  exists w. split; [exact Hw|]. apply Qabs_Qle_condition. lra.
Qed.

Lemma rounding_slack_1 (b : Z) :
  (rounding_slack b 1 == 2 ^ (b - 24) + 2 ^ (-21))%Q.
Proof. unfold rounding_slack. change (inject_Z (Z.of_nat 1)) with 1%Q. ring. Qed.

Section DitherFrames.
Context `{CRand}.
Hypothesis RAND_MAX_known : RAND_MAX = 32767 \/ RAND_MAX = 2147483647.
Hypothesis rand_range : forall g, 0 <= fst (rand g) <= RAND_MAX.

(** One call moves a sample below [8] by no more than twice the amplitude
    of the noise and the rounding of its two operations. *)
Lemma TriangleDither_moves (sample prev : Binary32.float) (g : rng) :
  sample_below 4 sample -> in_noise_range prev ->
  Binary32.is_finite (fst (fst (TriangleDither sample prev g))) = true /\
  in_noise_range (snd (fst (TriangleDither sample prev g))) /\
  (Qabs (float_value (fst (fst (TriangleDither sample prev g)))
         - float_value sample)
   <= 2 * dither_range + rounding_slack 4 1)%Q.
Proof.
  intros (vs & Hs & Hvs) (vp & Hp & Hvp).
  unfold DITHER_MIN, DITHER_MAX in Hvp.
  destruct (TriangleDither_step RAND_MAX_known rand_range 4 sample prev g vs vp
              Hs Hp ltac:(lia) Hvs Hvp) as (vs' & vd & Hs' & Hd & Hvd & Herr).
  split; [now apply (to_Q_is_finite _ vs')|]. split.
  - unfold TriangleDither. destruct (DITHER_NOISE g) as [d g']. cbn [fst snd] in *.
    exists vd. unfold DITHER_MIN, DITHER_MAX. auto.
  - rewrite (float_value_to_Q _ _ Hs'), (float_value_to_Q _ _ Hs).
    rewrite rounding_slack_1. unfold dither_range, DITHER_MAX.
    apply Qabs_Qle_condition in Herr as [E1 E2].
    apply Qabs_Qle_condition. lra.
Qed.

(** One call moves a sample that is a multiple of [2^u] by no more than
    [J * 2^u] when the difference of the dither values is no more and the
    sample is below [(2^24 - J) * 2^u]. *)
Lemma TriangleDither_moves_grid (sample prev : Binary32.float) (g : rng)
    (vs : Q) :
  Binary32.to_Q sample = Some vs -> (Qabs vs <= 8)%Q ->
  multiple_of_2pow (-20) vs -> in_noise_range prev ->
  Binary32.is_finite (fst (fst (TriangleDither sample prev g))) = true /\
  (Qabs (float_value (fst (fst (TriangleDither sample prev g))) - vs)
   <= 2 * dither_range)%Q.
Proof.
  intros Hs Hvs Hgrid (vp & Hp & Hvp).
  destruct (DITHER_NOISE_range RAND_MAX_known rand_range g) as (vd & Hd & Hvd).
  unfold DITHER_MIN, DITHER_MAX in Hvp, Hvd.
  unfold TriangleDither. destruct (DITHER_NOISE g) as [d g']. cbn [fst snd] in *.
  destruct (dither_difference d prev vd vp Hd Hp Hvd Hvp)
    as (o & Ho & Hrange & _).
  assert (E8 : (dyadic (2 ^ 23) (-20) == 8)%Q) by reflexivity.
  destruct (add_within (-20) (2 ^ 23) sample (Binary32.sub d prev) vs o Hs Ho
              ltac:(lia) ltac:(lia) Hgrid)
    as (w & Hw & Hin).
  { change (2 ^ 24 - 2 ^ 23) with (2 ^ 23). now rewrite E8. }
  { rewrite E8. apply Qabs_Qle_condition. exact Hrange. }
  split; [now apply (to_Q_is_finite _ w)|].
  rewrite (float_value_to_Q _ _ Hw), E8 in *.
  unfold dither_range, DITHER_MAX. exact Hin.
Qed.

End DitherFrames.









(** * Further properties of the code in [Mixer.h] and [Constants.h] *)

(** ** More on [Signed16ToFloat] *)

Lemma float_eqb_eq (x y : Binary32.float) : float_eqb x y = true -> x = y.
Proof.
  destruct x as [a|a| |a m e], y as [b|b| |b n f]; cbn; try discriminate;
    try reflexivity.
  - intros Hab. apply Bool.eqb_prop in Hab. now subst.
  - intros Hab. apply Bool.eqb_prop in Hab. now subst.
  - intros Hall. apply andb_true_iff in Hall as [Hall He].
    apply andb_true_iff in Hall as [Ha Hm].
    apply Bool.eqb_prop in Ha. apply Pos.eqb_eq in Hm. apply Z.eqb_eq in He.
    now subst.
Qed.

Lemma Signed16ToFloat_grows_all :
  check_from (Z.to_nat 65535) (-32768) Signed16ToFloat_growsb = true.
Proof. vm_cast_no_check (eq_refl true). Qed.

Lemma Signed16ToFloat_odd_all :
  check_from (Z.to_nat 32767) 1 Signed16ToFloat_oddb = true.
Proof. vm_cast_no_check (eq_refl true). Qed.

(** X1.  [Signed16ToFloat] keeps the order of the samples: a smaller sample
    converts to a smaller number, two different samples never convert to
    the same float, and by the comparison of binary32 the float of [s + 1]
    is above the float of [s]. *)
Theorem Signed16ToFloat_strictly_increasing (s1 s2 : Z) :
  is_s16 s1 -> is_s16 s2 ->
  (s1 < s2 ->
   (float_value (Signed16ToFloat s1) < float_value (Signed16ToFloat s2))%Q) /\
  (Signed16ToFloat s1 = Signed16ToFloat s2 -> s1 = s2) /\
  (s2 = s1 + 1 -> SFltb (Signed16ToFloat s1) (Signed16ToFloat s2) = true).
Proof.
  intros H1 H2.
  pose proof (float_value_Signed16ToFloat s1 H1) as V1.
  pose proof (float_value_Signed16ToFloat s2 H2) as V2.
  split; [|split].
  - intros Hlt. rewrite V1, V2. unfold s16_over_32768, Qlt. simpl. lia.
  - intros Heq. rewrite Heq in V1. rewrite V1 in V2.
    unfold s16_over_32768, Qeq in V2. simpl in V2. lia.
  - intros ->.
    apply (check_from_spec _ _ _ Signed16ToFloat_grows_all s1).
    unfold is_s16 in *. lia.
Qed.

Lemma Signed16ToFloat_strictly_increasing_witness :
  (float_value (Signed16ToFloat (-1)) < float_value (Signed16ToFloat 0))%Q /\
  SFltb (Signed16ToFloat (-1)) (Signed16ToFloat 0) = true.
Proof.
  destruct (Signed16ToFloat_strictly_increasing (-1) 0
              ltac:(unfold is_s16; lia) ltac:(unfold is_s16; lia))
    as (Hlt & _ & Hnext).
  split; [apply Hlt; lia|apply Hnext; lia].
Defined.

(** X2.  [Signed16ToFloat] is odd: for [0 < s <= 32767] the float of [-s]
    is the float of [s] with the sign flipped; [0] converts to the positive
    zero, [-32768] to [-1]; no sample converts to a negative zero, an
    infinity or a NaN. *)
Theorem Signed16ToFloat_odd (s : Z) :
  is_s16 s ->
  (0 < s -> Signed16ToFloat (- s) = SFopp (Signed16ToFloat s)) /\
  is_plain_float (Signed16ToFloat s) = true /\
  Signed16ToFloat 0 = S754_zero false /\
  Signed16ToFloat (-32768) = SFopp (Binary32.of_int 1).
Proof.
  intros Hs. unfold is_s16 in Hs.
  assert (Hpos : forall t, 0 < t <= 32767 -> Signed16ToFloat_oddb t = true).
  { intros t Ht. apply (check_from_spec _ _ _ Signed16ToFloat_odd_all t). lia. }
  split; [|split; [|split; vm_compute; reflexivity]].
  - intros H0. specialize (Hpos s ltac:(lia)).
    unfold Signed16ToFloat_oddb in Hpos.
    apply andb_true_iff in Hpos as [Hpos _].
    apply andb_true_iff in Hpos as [Hpos _]. now apply float_eqb_eq.
  - destruct (Z.eq_dec s 0) as [->|Hne]; [vm_compute; reflexivity|].
    destruct (Z.eq_dec s (-32768)) as [->|Hmin]; [vm_compute; reflexivity|].
    destruct (Z_lt_le_dec 0 s) as [Hgt|Hle].
    + specialize (Hpos s ltac:(lia)). unfold Signed16ToFloat_oddb in Hpos.
      apply andb_true_iff in Hpos as [Hpos _].
      now apply andb_true_iff in Hpos as [_ Hpos].
    + specialize (Hpos (- s) ltac:(lia)). unfold Signed16ToFloat_oddb in Hpos.
      apply andb_true_iff in Hpos as [_ Hpos].
      now rewrite Z.opp_involutive in Hpos.
Qed.

Lemma Signed16ToFloat_odd_witness :
  Signed16ToFloat (- 12345) = SFopp (Signed16ToFloat 12345).
Proof.
  apply (Signed16ToFloat_odd 12345 ltac:(unfold is_s16; lia)). lia.
Defined.

(** ** The dither noise in binary32 *)

Lemma binary32_noise_ok_all :
  check_from (Z.to_nat 32768) 0 (Binary32Noise.noise_okb 32767) = true.
Proof. vm_cast_no_check (eq_refl true). Qed.

Lemma binary32_noise_grows_all :
  check_from (Z.to_nat 32767) 0 (Binary32Noise.noise_growsb 32767) = true.
Proof. vm_cast_no_check (eq_refl true). Qed.

(** X4.  In binary32, with the [RAND_MAX = 32767] of the Microsoft runtime
    and every operation rounded to [float], [DITHER_NOISE] is a finite
    number within [[-4, 4]] for every value [r] of [rand()], exactly [-4]
    for [0] and exactly [4] for [RAND_MAX], above the noise of [r - 1], and
    within [2^-21] of the exact [r * 8 / RAND_MAX - 4]. *)
Theorem binary32_noise_in_range (r : Z) :
  0 <= r <= 32767 ->
  (exists q : Q,
     Binary32.to_Q (Binary32Noise.DITHER_NOISE 32767 r) = Some q /\
     (-4 <= q)%Q /\ (q <= 4)%Q /\
     (Qabs (q - exact_noise 32767 r) <= 1 # 2097152)%Q) /\
  (r < 32767 ->
   SFltb (Binary32Noise.DITHER_NOISE 32767 r)
         (Binary32Noise.DITHER_NOISE 32767 (r + 1)) = true) /\
  Binary32Noise.DITHER_NOISE 32767 0 = SFopp (Binary32.of_int 4) /\
  Binary32Noise.DITHER_NOISE 32767 32767 = Binary32.of_int 4.
Proof.
  intros Hr. split; [|split; [|split; vm_compute; reflexivity]].
  - pose proof (check_from_spec _ _ _ binary32_noise_ok_all r ltac:(lia)) as Hb.
    unfold Binary32Noise.noise_okb in Hb.
    destruct (Binary32.to_Q (Binary32Noise.DITHER_NOISE 32767 r)) as [q|];
      [|discriminate].
    apply andb_true_iff in Hb as [Hb Herr].
    apply andb_true_iff in Hb as [Hlo Hhi].
    exists q. split; [reflexivity|].
    apply Qle_bool_iff in Hlo. apply Qle_bool_iff in Hhi.
    apply Qle_bool_iff in Herr. auto.
  - intros Hlt.
    apply (check_from_spec _ _ _ binary32_noise_grows_all r). lia.
Qed.

Lemma binary32_noise_in_range_witness :
  exists q : Q,
    Binary32.to_Q (Binary32Noise.DITHER_NOISE 32767 9000) = Some q /\
    (-4 <= q)%Q /\ (q <= 4)%Q /\
    (Qabs (q - exact_noise 32767 9000) <= 1 # 2097152)%Q.
Proof. apply (binary32_noise_in_range 9000). lia. Defined.

(** ** The dither does not depend on the signal *)

Section SignalIndependence.
Context `{CRand}.
Hypothesis RAND_MAX_known : RAND_MAX = 32767 \/ RAND_MAX = 2147483647.
Hypothesis rand_range : forall g, 0 <= fst (rand g) <= RAND_MAX.

(** What a call adds to a sample, against the rounded difference of the
    dither values, which does not depend on the sample. *)
Lemma TriangleDither_offset (sample prev : Binary32.float) (g : rng) :
  sample_below 4 sample -> in_noise_range prev ->
  (Qabs (float_value (fst (fst (TriangleDither sample prev g)))
         - float_value sample
         - float_value (Binary32.sub (fst (DITHER_NOISE g)) prev))
   <= 2 ^ (-20))%Q.
Proof.
  intros (vs & Hs & Hvs) (vp & Hp & Hvp).
  destruct (DITHER_NOISE_range RAND_MAX_known rand_range g) as (vd & Hd & Hvd).
  unfold DITHER_MIN, DITHER_MAX in Hvp, Hvd.
  unfold TriangleDither. destruct (DITHER_NOISE g) as [d g']. cbn [fst snd] in *.
  destruct (dither_difference d prev vd vp Hd Hp Hvd Hvp)
    as (o & Ho & Hrange & _).
  change (2 ^ 4 - 8)%Q with 8%Q in Hvs.
  apply Qabs_Qle_condition in Hvs as [Hvl Hvh].
  destruct (add_error (-20) sample (Binary32.sub d prev) vs o Hs Ho ltac:(lia))
    as (w & Hw & Herr).
  { change (2 ^ (-20 + 24))%Q with 16%Q. apply Qabs_Qle_condition. lra. }
  rewrite (float_value_to_Q _ _ Hw), (float_value_to_Q _ _ Hs),
    (float_value_to_Q _ _ Ho).
  apply Qabs_Qle_condition in Herr as [E1 E2].
  apply Qabs_Qle_condition. lra.
Qed.

Lemma dither_run_offsets (pairs : list sample_pair) :
  Forall (fun p => sample_below 4 (fst p) /\ sample_below 4 (snd p)) pairs ->
  forall (prev : Binary32.float) (g : rng),
  in_noise_range prev ->
  Forall2 (fun x y => (Qabs (x - y) <= 2 ^ (-19))%Q)
    (offsets (fst (fst (dither_run (map fst pairs) prev g))) (map fst pairs))
    (offsets (fst (fst (dither_run (map snd pairs) prev g))) (map snd pairs)).
Proof.
  intros Hall. induction Hall as [|[a b] pairs [Ha Hb] _ IH]; intros prev g Hprev.
  - constructor.
  - cbn [map fst snd dither_run].
    pose proof (TriangleDither_offset a prev g Ha Hprev) as Oa.
    pose proof (TriangleDither_offset b prev g Hb Hprev) as Ob.
    pose proof (DITHER_NOISE_range RAND_MAX_known rand_range g) as Hd.
    unfold TriangleDither in *. destruct (DITHER_NOISE g) as [d g'].
    cbn [fst snd] in *. specialize (IH d g' Hd).
    destruct (dither_run (map fst pairs) d g') as [[out1 p1] g1].
    destruct (dither_run (map snd pairs) d g') as [[out2 p2] g2].
    cbn [fst snd] in *. unfold offsets in *. cbn [zip_with].
    constructor; [|exact IH].
    assert (E19 : (2 ^ (-19) == 2 ^ (-20) + 2 ^ (-20))%Q) by reflexivity.
    rewrite E19.
    apply Qabs_Qle_condition in Oa as [A1 A2].
    apply Qabs_Qle_condition in Ob as [B1 B2].
    apply Qabs_Qle_condition. lra.
Qed.

End SignalIndependence.

(** X5.  The dither does not depend on the signal.  Where [RAND_MAX] is
    [32767] or [2147483647] and [rand()] stays within [[0, RAND_MAX]], two
    runs of [TriangleDither] from the same dither state and generator state
    leave the same dither state and the same generator state, and, on
    finite samples below [8] from a state within the noise range, move
    sample [k] of the one signal by what they move sample [k] of the other
    signal by, up to the rounding of the two sums, [2^-19]. *)
Theorem dither_is_signal_independent `{CRand} (pairs : list sample_pair)
    (prev : Binary32.float) (g : rng) :
  RAND_MAX = 32767 \/ RAND_MAX = 2147483647 ->
  (forall g', 0 <= fst (rand g') <= RAND_MAX) ->
  let '(out1, p1, g1) := dither_run (map fst pairs) prev g in
  let '(out2, p2, g2) := dither_run (map snd pairs) prev g in
  length out1 = length pairs /\ length out2 = length pairs /\
  p1 = p2 /\ g1 = g2 /\
  (in_noise_range prev ->
   Forall (fun p => sample_below 4 (fst p) /\ sample_below 4 (snd p)) pairs ->
   Forall2 (fun x y => (Qabs (x - y) <= 2 ^ (-19))%Q)
     (offsets out1 (map fst pairs)) (offsets out2 (map snd pairs))).
Proof.
  intros Hmax Hrand.
  pose proof (dither_run_shape (map fst pairs) prev g) as (L1 & F1 & G1).
  pose proof (dither_run_shape (map snd pairs) prev g) as (L2 & F2 & G2).
  pose proof (fun Hall Hprev =>
                dither_run_offsets Hmax Hrand pairs Hall prev g Hprev) as Hoff.
  destruct (dither_run (map fst pairs) prev g) as [[out1 p1] g1].
  destruct (dither_run (map snd pairs) prev g) as [[out2 p2] g2].
  cbn [fst snd] in *. rewrite length_map in *.
  split; [exact L1|]. split; [exact L2|]. split; [congruence|].
  split; [congruence|]. auto.
Qed.

Lemma dither_is_signal_independent_witness :
  let a := Signed16ToFloat 16384 in
  let b := Signed16ToFloat (-12345) in
  let '(out1, p1, g1) :=
    dither_run (H := msvc_CRand) [a; b] (Binary32.of_int 0) (1 : Z) in
  let '(out2, p2, g2) :=
    dither_run (H := msvc_CRand) [b; a] (Binary32.of_int 0) (1 : Z) in
  p1 = p2 /\ g1 = g2.
Proof.
  cbv zeta.
  pose proof (dither_is_signal_independent (H := msvc_CRand)
                [(Signed16ToFloat 16384, Signed16ToFloat (-12345));
                 (Signed16ToFloat (-12345), Signed16ToFloat 16384)]
                (Binary32.of_int 0) (1 : Z) (or_introl eq_refl) msvc_rand_range) as Hrun.
  cbn [map fst snd] in Hrun.
  destruct (dither_run (H := msvc_CRand)
              [Signed16ToFloat 16384; Signed16ToFloat (-12345)] _ (1 : Z))
    as [[out1 p1] g1].
  destruct (dither_run (H := msvc_CRand)
              [Signed16ToFloat (-12345); Signed16ToFloat 16384] _ (1 : Z))
    as [[out2 p2] g2].
  destruct Hrun as (_ & _ & Hp & Hg & _). split; assumption.
Defined.

(** ** One call of [TriangleDither] *)

Section OneCall.
Context `{CRand}.
Hypothesis RAND_MAX_known : RAND_MAX = 32767 \/ RAND_MAX = 2147483647.
Hypothesis rand_range : forall g, 0 <= fst (rand g) <= RAND_MAX.

(** From the state [0] of the constructor the rounded difference is the
    dither value itself, and a multiple of [2^-21] below [4] is moved by no
    more than the amplitude. *)
Lemma TriangleDither_from_zero (sample : Binary32.float) (g : rng) (vs : Q) :
  Binary32.to_Q sample = Some vs -> (Qabs vs <= 4)%Q ->
  multiple_of_2pow (-21) vs ->
  (Qabs (float_value (fst (fst (TriangleDither sample (Binary32.of_int 0) g)))
         - vs) <= DITHER_MAX)%Q.
Proof.
  intros Hs Hvs Hgrid.
  destruct (DITHER_NOISE_range RAND_MAX_known rand_range g) as (vd & Hd & Hvd).
  unfold DITHER_MIN, DITHER_MAX in *.
  unfold TriangleDither. destruct (DITHER_NOISE g) as [d g']. cbn [fst snd] in *.
  assert (R4 : representable 4 /\ representable (-4)).
  { split; [apply (representable_small_int 4)|apply (representable_small_int (-4))];
      cbn; lia. }
  destruct R4 as [R4 Rm4].
  destruct (sub_between d (Binary32.of_int 0) vd 0 (-4) 4 Hd eq_refl Rm4 R4
              ltac:(lra)) as (o & Ho & Hrange).
  assert (E4 : (dyadic (2 ^ 23) (-21) == 4)%Q) by reflexivity.
  destruct (add_within (-21) (2 ^ 23) sample (Binary32.sub d (Binary32.of_int 0))
              vs o Hs Ho ltac:(lia) ltac:(lia) Hgrid)
    as (w & Hw & Hin).
  { change (2 ^ 24 - 2 ^ 23) with (2 ^ 23). now rewrite E4. }
  { rewrite E4. apply Qabs_Qle_condition. exact Hrange. }
  rewrite (float_value_to_Q _ _ Hw), E4 in *. exact Hin.
Qed.

End OneCall.

(** X13.  One call of [TriangleDither] where [RAND_MAX] is [32767] (the
    Microsoft runtime) or [2147483647] (the GNU C library) and [rand()]
    stays within [[0, RAND_MAX]]: the new dither state is a finite number
    in [[-4, 4]] whatever the sample and the old state were.  From a state
    in that range a finite sample below [8] comes out finite and moved by
    at most [8] and the rounding of the two operations, by at most [8] when
    it is a multiple of [2^-20]; from the state [0] an engine is
    constructed with, a multiple of [2^-21] below [4] is moved by at most
    [4], on both channels. *)
Theorem TriangleDither_moves_little `{CRand}
    (sample prev_dither : Binary32.float)
    (g : rng) (BackendSampleRate : Z)
    (i_dma i_streaming i_wiimote : FifoInit) (log : list LogLine) :
  RAND_MAX = 32767 \/ RAND_MAX = 2147483647 ->
  (forall g', 0 <= fst (rand g') <= RAND_MAX) ->
  let '(sample', prev', _) := TriangleDither sample prev_dither g in
  in_noise_range prev' /\
  (sample_below 4 sample -> in_noise_range prev_dither ->
   Binary32.is_finite sample' = true /\
   (Qabs (float_value sample' - float_value sample)
    <= 8 + rounding_slack 4 1)%Q /\
   (multiple_of_2pow (-20) (float_value sample) ->
    (Qabs (float_value sample' - float_value sample) <= 8)%Q)) /\
  let m := fst (fst (CMixer_new BackendSampleRate i_dma i_streaming i_wiimote log)) in
  let '(l', _, g1) := TriangleDither sample (m_l_dither_prev m) g in
  let '(r', _, _) := TriangleDither sample (m_r_dither_prev m) g1 in
  (Binary32.is_finite sample = true ->
   (Qabs (float_value sample) <= 4)%Q ->
   multiple_of_2pow (-21) (float_value sample) ->
   (Qabs (float_value l' - float_value sample) <= 4)%Q /\
   (Qabs (float_value r' - float_value sample) <= 4)%Q).
Proof.
  intros Hmax Hrand.
  cbn [CMixer_new MixerFifo_new fst snd m_l_dither_prev m_r_dither_prev].
  pose proof (DITHER_NOISE_range Hmax Hrand g) as Hd.
  pose proof (fun Hs Hp => TriangleDither_moves Hmax Hrand sample prev_dither g Hs Hp)
    as Hmoves.
  pose proof (fun vs Hs Hv Hg Hp =>
                TriangleDither_moves_grid Hmax Hrand sample prev_dither g vs
                  Hs Hv Hg Hp) as Hgrid.
  pose proof (fun vs Hs Hv Hg =>
                TriangleDither_from_zero Hmax Hrand sample g vs Hs Hv Hg) as Hl0.
  assert (Hr0 : forall g1 vs, Binary32.to_Q sample = Some vs ->
            (Qabs vs <= 4)%Q -> multiple_of_2pow (-21) vs ->
            (Qabs (float_value
                     (fst (fst (TriangleDither sample (Binary32.of_int 0) g1)))
                   - vs) <= DITHER_MAX)%Q).
  { intros g1 vs. apply (TriangleDither_from_zero Hmax Hrand). }
  unfold TriangleDither in *.
  destruct (DITHER_NOISE g) as [d g1]. cbn [fst snd] in *.
  specialize (Hr0 g1). destruct (DITHER_NOISE g1) as [d1 g2]. cbn [fst snd] in *.
  split; [exact Hd|]. split.
  - intros Hs Hp. destruct (Hmoves Hs Hp) as (Hfin & _ & Hb).
    split; [exact Hfin|]. split; [exact Hb|].
    intros Hg. destruct Hs as (vs & Hs & Hvs).
    rewrite (float_value_to_Q _ _ Hs) in *.
    change (2 ^ 4 - 8)%Q with 8%Q in Hvs.
    now destruct (Hgrid vs Hs Hvs Hg Hp).
  - intros Hfin Hv Hg.
    destruct (Binary32.to_Q sample) as [vs|] eqn:Hs;
      [|destruct sample; discriminate].
    rewrite (float_value_to_Q _ _ Hs) in *.
    unfold DITHER_MAX in *. split; [now apply Hl0|now apply Hr0].
Qed.

Lemma TriangleDither_moves_little_witness :
  let s := Signed16ToFloat 16384 in
  let '(sample', prev', _) :=
    TriangleDither (H := msvc_CRand) s (Binary32.of_int 0) (1 : Z) in
  in_noise_range prev' /\ Binary32.is_finite sample' = true /\
  (Qabs (float_value sample' - float_value s) <= 8)%Q.
Proof.
  cbv zeta.
  pose proof (TriangleDither_moves_little (H := msvc_CRand)
                (Signed16ToFloat 16384) (Binary32.of_int 0)
                (1 : Z) 48000 zero_init zero_init zero_init []
                (or_introl eq_refl) msvc_rand_range) as Hmove.
  destruct (TriangleDither (H := msvc_CRand) (Signed16ToFloat 16384)
              (Binary32.of_int 0) (1 : Z)) as [[sample' prev'] g'].
  destruct Hmove as (Hstate & Hcall & _).
  destruct Hcall as (Hfin & _ & Hgrid).
  - eexists. split; [reflexivity|]. vm_compute. discriminate.
  - eexists. split; [reflexivity|]. split; vm_compute; discriminate.
  - split; [exact Hstate|]. split; [exact Hfin|]. apply Hgrid.
    exists 524288. vm_compute. reflexivity.
Defined.

(** ** Sequences of calls of the inline members *)

Lemma calls_snoc (cs : list ControlCall) (c : ControlCall) st :
  calls (cs ++ [c]) st = call c (calls cs st).
Proof. unfold calls. now rewrite fold_left_app. Qed.

Lemma call_writers_follow_flags (c : ControlCall) (m : CMixer) log :
  writers_follow_flags m -> writers_follow_flags (fst (call c (m, log))).
Proof.
  intros [Hdtk Hdsp]. unfold writers_follow_flags.
  destruct c as [filename| |filename| |val]; cbn [call fst snd];
    unfold StartLogDTKAudio, StopLogDTKAudio, StartLogDSPAudio,
      StopLogDSPAudio.
  - destruct (m_log_dtk_audio m) eqn:E; cbn; rewrite ?Hdtk, ?Hdsp, ?E; auto.
  - destruct (m_log_dtk_audio m) eqn:E; cbn; rewrite ?Hdtk, ?Hdsp, ?E; auto.
  - destruct (m_log_dsp_audio m) eqn:E; cbn; rewrite ?Hdtk, ?Hdsp, ?E; auto.
  - destruct (m_log_dsp_audio m) eqn:E; cbn; rewrite ?Hdtk, ?Hdsp, ?E; auto.
  - cbn. auto.
Qed.

(** X6.  Whatever inline members are called on an engine after its
    construction, in whatever order, each wave writer has received its calls
    in turn: [Start] with the rate of its log (48000 for DTK, 32000 for
    DSP) directly followed by [SetSkipSilence(false)], then [Stop], never a
    start while started or a stop while stopped; and the writer is started
    exactly when the boolean of its log is set. *)
Theorem wave_writers_follow_the_flags `{CRand} (BackendSampleRate : Z)
    (i_dma i_streaming i_wiimote : FifoInit) (log : list LogLine)
    (cs : list ControlCall) :
  let m0 := fst (fst (CMixer_new BackendSampleRate i_dma i_streaming i_wiimote log)) in
  let log0 := snd (CMixer_new BackendSampleRate i_dma i_streaming i_wiimote log) in
  let m := fst (calls cs (m0, log0)) in
  writer_state 48000 (wave_calls (g_wave_writer_dtk m))
    = Some (m_log_dtk_audio m) /\
  writer_state 32000 (wave_calls (g_wave_writer_dsp m))
    = Some (m_log_dsp_audio m).
Proof.
  cbv zeta.
  set (m0 := fst (fst (CMixer_new BackendSampleRate i_dma i_streaming i_wiimote log))).
  set (log0 := snd (CMixer_new BackendSampleRate i_dma i_streaming i_wiimote log)).
  change (writers_follow_flags (fst (calls cs (m0, log0)))).
  induction cs as [|c cs IH] using rev_ind.
  - split; reflexivity.
  - rewrite calls_snoc.
    destruct (calls cs (m0, log0)) as [m1 log1] eqn:E.
    now apply call_writers_follow_flags.
Qed.

(** X7.  Each of the four log members adds exactly one line to the log; the
    line is a warning exactly when the call left the engine as it was, and
    a notice exactly when it changed the engine.  [UpdateSpeed] logs
    nothing. *)
Theorem one_line_per_log_call (c : ControlCall) (m : CMixer)
    (log : list LogLine) :
  let '(m', log') := call c (m, log) in
  match c with
  | CallUpdateSpeed _ => log' = log
  | _ =>
      exists (level : LogLevel) (text : string),
        log' = (level, DSPHLE, text) :: log /\
        (level = WARN_LOG <-> m' = m) /\
        (level = NOTICE_LOG <-> m' <> m)
  end.
Proof.
  assert (Hdtk : forall w on, m_log_dtk_audio m = negb on -> set_dtk on w m <> m).
  { intros w on Hon Heq. apply (f_equal m_log_dtk_audio) in Heq.
    cbn in Heq. rewrite Hon in Heq. now destruct on. }
  assert (Hdsp : forall w on, m_log_dsp_audio m = negb on -> set_dsp on w m <> m).
  { intros w on Hon Heq. apply (f_equal m_log_dsp_audio) in Heq.
    cbn in Heq. rewrite Hon in Heq. now destruct on. }
  destruct c as [filename| |filename| |val]; cbn [call fst snd];
    unfold StartLogDTKAudio, StopLogDTKAudio, StartLogDSPAudio,
      StopLogDSPAudio; try reflexivity.
  - destruct (m_log_dtk_audio m) eqn:E; cbn [negb]; do 2 eexists;
      (split; [reflexivity|]).
    + split; [tauto|]. split; [discriminate|]. intros Hne. now contradiction Hne.
    + split; split; try discriminate; try reflexivity.
      * intros Heq. exfalso. revert Heq. now apply Hdtk.
      * intros _. now apply Hdtk.
  - destruct (m_log_dtk_audio m) eqn:E; do 2 eexists;
      (split; [reflexivity|]).
    + split; split; try discriminate; try reflexivity.
      * intros Heq. exfalso. revert Heq. now apply Hdtk.
      * intros _. now apply Hdtk.
    + split; [tauto|]. split; [discriminate|]. intros Hne. now contradiction Hne.
  - destruct (m_log_dsp_audio m) eqn:E; cbn [negb]; do 2 eexists;
      (split; [reflexivity|]).
    + split; [tauto|]. split; [discriminate|]. intros Hne. now contradiction Hne.
    + split; split; try discriminate; try reflexivity.
      * intros Heq. exfalso. revert Heq. now apply Hdsp.
      * intros _. now apply Hdsp.
  - destruct (m_log_dsp_audio m) eqn:E; do 2 eexists;
      (split; [reflexivity|]).
    + split; split; try discriminate; try reflexivity.
      * intros Heq. exfalso. revert Heq. now apply Hdsp.
      * intros _. now apply Hdsp.
    + split; [tauto|]. split; [discriminate|]. intros Hne. now contradiction Hne.
Qed.

(** X8.  The two logs do not interfere: a DTK call leaves the boolean and
    the wave writer of the DSP log alone and a DSP call those of the DTK
    log, so a DTK call and a DSP call give the same engine in either
    order; only their two log lines come out in the order of the calls. *)
Theorem dtk_and_dsp_calls_commute (a b : ControlCall) (m : CMixer)
    (log : list LogLine) :
  is_dtk_call a = true -> is_dsp_call b = true ->
  fst (call b (call a (m, log))) = fst (call a (call b (m, log))) /\
  (m_log_dsp_audio (fst (call a (m, log))) = m_log_dsp_audio m /\
   g_wave_writer_dsp (fst (call a (m, log))) = g_wave_writer_dsp m) /\
  (m_log_dtk_audio (fst (call b (m, log))) = m_log_dtk_audio m /\
   g_wave_writer_dtk (fst (call b (m, log))) = g_wave_writer_dtk m) /\
  exists la lb : LogLine,
    snd (call a (m, log)) = la :: log /\
    snd (call b (m, log)) = lb :: log /\
    snd (call b (call a (m, log))) = lb :: la :: log /\
    snd (call a (call b (m, log))) = la :: lb :: log.
Proof.
  intros Ha Hb.
  destruct a as [fa| |fa| |va]; try discriminate Ha;
    destruct b as [fb| |fb| |vb]; try discriminate Hb;
    cbn [call fst snd];
    unfold StartLogDTKAudio, StopLogDTKAudio, StartLogDSPAudio,
      StopLogDSPAudio;
    destruct (m_log_dtk_audio m) eqn:Edtk;
    destruct (m_log_dsp_audio m) eqn:Edsp;
    cbn; rewrite ?Edtk, ?Edsp; cbn;
    (split; [reflexivity|]); (split; [auto|]); (split; [auto|]);
    do 2 eexists; repeat split; reflexivity.
Qed.

Lemma dtk_and_dsp_calls_commute_witness :
  fst (call CallStopLogDSPAudio
         (call (CallStartLogDTKAudio "dtk.wav") fresh_state))
  = fst (call (CallStartLogDTKAudio "dtk.wav")
           (call CallStopLogDSPAudio fresh_state)).
Proof.
  apply (dtk_and_dsp_calls_commute (CallStartLogDTKAudio "dtk.wav")
           CallStopLogDSPAudio (fst fresh_state) (snd fresh_state)
           ltac:(reflexivity) ltac:(reflexivity)).
Defined.

(** X9.  Starting a stopped log and then stopping it restores the engine
    but for the record of its wave writer, which has received
    [Start(filename, rate)], [SetSkipSilence(false)] and [Stop()] (rate
    48000 for DTK, 32000 for DSP); the two calls log two notices. *)
Theorem start_then_stop_restores (filename : string) (m : CMixer)
    (log : list LogLine) :
  (m_log_dtk_audio m = false ->
   calls [CallStartLogDTKAudio filename; CallStopLogDTKAudio] (m, log) =
     (set_dtk (m_log_dtk_audio m)
        {| wave_calls :=
             WaveStop :: WaveSetSkipSilence false
               :: WaveStart filename 48000
               :: wave_calls (g_wave_writer_dtk m) |} m,
      (NOTICE_LOG, DSPHLE, "Stopping DTK Audio logging"%string)
        :: (NOTICE_LOG, DSPHLE, "Starting DTK Audio logging"%string)
        :: log)) /\
  (m_log_dsp_audio m = false ->
   calls [CallStartLogDSPAudio filename; CallStopLogDSPAudio] (m, log) =
     (set_dsp (m_log_dsp_audio m)
        {| wave_calls :=
             WaveStop :: WaveSetSkipSilence false
               :: WaveStart filename 32000
               :: wave_calls (g_wave_writer_dsp m) |} m,
      (NOTICE_LOG, DSPHLE, "Stopping DSP Audio logging"%string)
        :: (NOTICE_LOG, DSPHLE, "Starting DSP Audio logging"%string)
        :: log)).
Proof.
  split; intros Hoff; unfold calls; cbn [fold_left call fst snd];
    unfold StartLogDTKAudio, StopLogDTKAudio, StartLogDSPAudio,
      StopLogDSPAudio; rewrite Hoff; reflexivity.
Qed.

Lemma start_then_stop_restores_witness :
  m_log_dtk_audio
    (fst (calls [CallStartLogDTKAudio "dtk.wav"; CallStopLogDTKAudio]
            fresh_state)) = false /\
  m_log_dsp_audio
    (fst (calls [CallStartLogDSPAudio "dsp.wav"; CallStopLogDSPAudio]
            fresh_state)) = false.
Proof.
  destruct (start_then_stop_restores "dtk.wav" (fst fresh_state)
              (snd fresh_state)) as [Hdtk _].
  destruct (start_then_stop_restores "dsp.wav" (fst fresh_state)
              (snd fresh_state)) as [_ Hdsp].
  change fresh_state with (fst fresh_state, snd fresh_state).
  rewrite Hdtk, Hdsp by reflexivity. split; reflexivity.
Defined.

Lemma calls_cons (c : ControlCall) (cs : list ControlCall) st :
  calls (c :: cs) st = calls cs (call c st).
Proof. reflexivity. Qed.

(** X10.  The inline control members never touch the audio path: after any
    sequence of them [GetSampleRate] returns what it returned before, and
    the three fifos, the output buffer and the two dither states are the
    same; [GetCurrentSpeed] returns the value of the last [UpdateSpeed] of
    the sequence, or the former speed when there was none. *)
Theorem control_calls_keep_the_audio_path (cs : list ControlCall)
    (m : CMixer) (log : list LogLine) :
  let m' := fst (calls cs (m, log)) in
  GetSampleRate m' = GetSampleRate m /\
  fifos m' = fifos m /\
  m_output_buffer m' = m_output_buffer m /\
  m_l_dither_prev m' = m_l_dither_prev m /\
  m_r_dither_prev m' = m_r_dither_prev m /\
  GetCurrentSpeed m' = last_speed cs (GetCurrentSpeed m).
Proof.
  cbv zeta. revert m log.
  induction cs as [|c cs IH]; intros m log; [repeat split|].
  rewrite calls_cons.
  destruct (call c (m, log)) as [m1 log1] eqn:E.
  specialize (IH m1 log1).
  destruct IH as (Hrate & Hfifos & Hbuf & Hl & Hr & Hspeed).
  assert (Hstep : GetSampleRate m1 = GetSampleRate m /\ fifos m1 = fifos m /\
                  m_output_buffer m1 = m_output_buffer m /\
                  m_l_dither_prev m1 = m_l_dither_prev m /\
                  m_r_dither_prev m1 = m_r_dither_prev m /\
                  GetCurrentSpeed m1 =
                    match c with
                    | CallUpdateSpeed val => val
                    | _ => GetCurrentSpeed m
                    end).
  { destruct c as [filename| |filename| |val]; cbn [call fst snd] in E;
      unfold StartLogDTKAudio, StopLogDTKAudio, StartLogDSPAudio,
        StopLogDSPAudio in E;
      try destruct (m_log_dtk_audio m); try destruct (m_log_dsp_audio m);
      injection E as <- <-; repeat split. }
  destruct Hstep as (Srate & Sfifos & Sbuf & Sl & Sr & Sspeed).
  rewrite Hrate, Hfifos, Hbuf, Hl, Hr, Hspeed, Sspeed.
  repeat split; assumption.
Qed.

(** ** Indices under [INDEX_MASK] *)

(** X11.  Masking a [u32] counter with [INDEX_MASK] is its remainder modulo
    the [2 * MAX_SAMPLES] floats of the array; so masking twice is masking
    once, an index may be masked before or after an addition, and the
    masked index moves on by one, modulo the size of the array, when the
    counter does, also when the counter wraps around from [2^32 - 1] to
    [0]. *)
Theorem masked_index_follows_counter (i j : Z) :
  Z.land (u32 i) INDEX_MASK = i mod (2 * MAX_SAMPLES) /\
  Z.land (Z.land (u32 i) INDEX_MASK) INDEX_MASK = Z.land (u32 i) INDEX_MASK /\
  Z.land (u32 (Z.land (u32 i) INDEX_MASK + j)) INDEX_MASK
    = Z.land (u32 (i + j)) INDEX_MASK /\
  Z.land (u32 (u32 i + 1)) INDEX_MASK
    = (Z.land (u32 i) INDEX_MASK + 1) mod (2 * MAX_SAMPLES) /\
  (u32 i = 2 ^ 32 - 1 ->
   Z.land (u32 i) INDEX_MASK = INDEX_MASK /\
   Z.land (u32 (u32 i + 1)) INDEX_MASK = 0).
Proof.
  change (2 * MAX_SAMPLES) with 4096.
  assert (Hland : forall x, Z.land x INDEX_MASK = x mod 4096).
  { intros x. rewrite INDEX_MASK_ones, Z.land_ones by lia. reflexivity. }
  rewrite !Hland. change INDEX_MASK with 4095.
  repeat split; mod_arith.
Qed.

Lemma masked_index_follows_counter_witness :
  Z.land (u32 4294967295) INDEX_MASK = INDEX_MASK /\
  Z.land (u32 (u32 4294967295 + 1)) INDEX_MASK = 0.
Proof.
  apply (masked_index_follows_counter 4294967295 0). reflexivity.
Defined.

(** ** [SamplerState] *)

(** X12.  The comparison operators of [SamplerState] order the states by
    [bits]: [!=] is the negation of [==], [>] is [<] with the operands
    exchanged, [==] holds exactly for equal states, exactly one of [<],
    [==] and [>] holds for any two states, and [<] is transitive. *)
Theorem SamplerState_operators_order (a b c : Vulkan.SamplerState) :
  Vulkan.ne a b = negb (Vulkan.eq a b) /\
  Vulkan.gt a b = Vulkan.lt b a /\
  (Vulkan.eq a b = true <-> a = b) /\
  ((Vulkan.lt a b = true /\ Vulkan.eq a b = false /\ Vulkan.gt a b = false) \/
   (Vulkan.lt a b = false /\ Vulkan.eq a b = true /\ Vulkan.gt a b = false) \/
   (Vulkan.lt a b = false /\ Vulkan.eq a b = false /\ Vulkan.gt a b = true)) /\
  (Vulkan.lt a b = true -> Vulkan.lt b c = true -> Vulkan.lt a c = true).
Proof.
  destruct a as [x], b as [y], c as [z].
  unfold Vulkan.ne, Vulkan.eq, Vulkan.gt, Vulkan.lt. cbn [Vulkan.bits].
  split; [reflexivity|]. split; [apply Z.gtb_ltb|].
  split; [|split].
  - rewrite Z.eqb_eq. split; [now intros ->|now intros [= ->]].
  - rewrite Z.gtb_ltb.
    destruct (Z.ltb_spec x y), (Z.eqb_spec x y), (Z.ltb_spec y x);
      try lia; auto.
  - rewrite !Z.ltb_lt. lia.
Qed.

Lemma SamplerState_operators_order_witness :
  Vulkan.lt {| Vulkan.bits := 1 |} {| Vulkan.bits := 3 |} = true.
Proof.
  apply (SamplerState_operators_order {| Vulkan.bits := 1 |}
           {| Vulkan.bits := 2 |} {| Vulkan.bits := 3 |}); reflexivity.
Defined.
